(** * Blok: the chunk server (Server.hh)

    A shallow embedding of [Blok::Server::getChunk] and of the chunk
    loading thread [Blok::LocalServer::T_chunkLoad_run], and the
    properties of the request / generate / load protocol they implement.

    The two critical sections of the loader thread and the body of
    [getChunk] run under the mutex [L_chunks]; each of them is one atomic
    transition of the model.  The generation loop runs outside the mutex,
    one call of the world generator per transition, so that calls of
    [getChunk] interleave with it.  The polling loop reads
    [chunkRequests.size()] without the mutex; that read is one transition
    too (threads are interleaved, memory is sequentially consistent). *)

From stdpp Require Import gmap list fin_maps fin_sets strings.

Module Blok.

(** ** Data *)

(** Modelled from the spec: the declaration of [ChunkID] (Blok.hh) is not
    among the sources; the specification describes it as an opaque,
    hashable, equality-comparable key of three integer axes, written
    [ChunkID{0,0,0}].  Only equality and hashing are used by the server. *)
Record ChunkID : Type := mkChunkID { cx : Z; cy : Z; cz : Z }.

#[global] Instance ChunkID_eq_dec : EqDecision ChunkID.
Proof. solve_decision. Defined.

Definition ChunkID_to_tuple (c : ChunkID) : Z * Z * Z := (cx c, cy c, cz c).
Definition ChunkID_of_tuple (t : Z * Z * Z) : ChunkID :=
  mkChunkID t.1.1 t.1.2 t.2.

#[global] Instance ChunkID_countable : Countable ChunkID.
Proof.
  apply (inj_countable' ChunkID_to_tuple ChunkID_of_tuple).
  by intros [].
Defined.

(** Concrete data for the examples: two chunk identifiers, and a
    generator that hands out the chunk objects 0, 1, 2, ... in the order
    it is called (its state is the next free object). *)
Definition id0 : ChunkID := mkChunkID 0 0 0.
Definition id1 : ChunkID := mkChunkID 1 0 0.
Definition fresh_gen (next : nat) (cid : ChunkID) : nat * nat := (next, S next).

(** ** Render.hh: bitmaps *)

Module Render.

#[local] Open Scope Z_scope.

(** [int] is a 32-bit signed integer.  Signed overflow is undefined in
    C++: an operation whose mathematical result does not fit has no
    result here. *)
Definition INT_MIN : Z := - 2 ^ 31.
Definition INT_MAX : Z := 2 ^ 31 - 1.

Definition int (z : Z) : option Z :=
  if bool_decide (INT_MIN ≤ z ≤ INT_MAX) then Some z else None.

(** [using pixel = glm::vec<4, uint8_t>]: four bytes. *)
Record pixel : Type := mkPixel { px : Z; py : Z; pz : Z; pw : Z }.

(** [class Texture]: the member variables. *)
Module Texture.
Record t : Type := mk {
  width : Z;
  height : Z;
  pixels : list pixel;   (* [pixel* pixels], row major *)
  glTex : Z
}.
End Texture.

(** [class FontTexture]: the member variables; [FT_Face] is a handle. *)
Module FontTexture.
Record CharInfo : Type := mkCharInfo {
  texStart : Z * Z;
  texStop : Z * Z;
  bearing : Z * Z;
  advance : Z
}.
Record t : Type := mk {
  fontName : string;
  width : Z;
  height : Z;
  pixels : list pixel;
  glTex : Z;
  ftFace : Z;
  charInfos : gmap Ascii.ascii CharInfo
}.
End FontTexture.

(** [Texture] and [FontTexture] carry the same three methods [getIndex],
    [get] and [set], with the same bodies (lines 65-79 and 145-159); they
    are written once, over what the bodies use: the width, the height
    and the pixel array. *)
Class Bitmap (T : Type) : Type := {
  bm_width : T → Z;
  bm_height : T → Z;
  bm_pixels : T → list pixel;
  bm_with_pixels : list pixel → T → T;
  bm_width_with ps t : bm_width (bm_with_pixels ps t) = bm_width t;
  bm_height_with ps t : bm_height (bm_with_pixels ps t) = bm_height t;
  bm_pixels_with ps t : bm_pixels (bm_with_pixels ps t) = ps;
  bm_with_with ps ps' t :
    bm_with_pixels ps (bm_with_pixels ps' t) = bm_with_pixels ps t
}.

#[global] Instance Texture_Bitmap : Bitmap Texture.t := {|
  bm_width := Texture.width;
  bm_height := Texture.height;
  bm_pixels := Texture.pixels;
  bm_with_pixels ps t :=
    Texture.mk (Texture.width t) (Texture.height t) ps (Texture.glTex t);
  bm_width_with _ _ := eq_refl;
  bm_height_with _ _ := eq_refl;
  bm_pixels_with _ _ := eq_refl;
  bm_with_with _ _ _ := eq_refl
|}.

#[global] Instance FontTexture_Bitmap : Bitmap FontTexture.t := {|
  bm_width := FontTexture.width;
  bm_height := FontTexture.height;
  bm_pixels := FontTexture.pixels;
  bm_with_pixels ps t :=
    FontTexture.mk (FontTexture.fontName t) (FontTexture.width t)
                   (FontTexture.height t) ps (FontTexture.glTex t)
                   (FontTexture.ftFace t) (FontTexture.charInfos t);
  bm_width_with _ _ := eq_refl;
  bm_height_with _ _ := eq_refl;
  bm_pixels_with _ _ := eq_refl;
  bm_with_with _ _ _ := eq_refl
|}.

(** [int getIndex(int row=0, int col=0) const]: [width * row + col]. *)
Definition getIndex `{Bitmap T} (t : T) (row col : Z) : option Z :=
  int (bm_width t * row) ≫= λ m, int (m + col).

(** [pixel get(int row, int col) const]: [pixels[idx]].  Reading outside
    the array is undefined: no result. *)
Definition get `{Bitmap T} (t : T) (row col : Z) : option pixel :=
  getIndex t row col ≫= λ idx,
    if bool_decide (0 ≤ idx) then bm_pixels t !! Z.to_nat idx else None.

(** [void set(int row, int col, pixel pix)]: [pixels[idx] = pix].
    Writing outside the array is undefined: no result. *)
Definition set `{Bitmap T} (t : T) (row col : Z) (pix : pixel) : option T :=
  getIndex t row col ≫= λ idx,
    if bool_decide (0 ≤ idx < Z.of_nat (length (bm_pixels t)))
    then Some (bm_with_pixels (<[Z.to_nat idx := pix]> (bm_pixels t)) t)
    else None.

(** The pixel array holds [width * height] pixels ("array of pixels, in
    row major order"; it is allocated in Texture.cc, which is not among
    the sources), and that number is an [int]. *)
Definition allocated `{Bitmap T} (t : T) : Prop :=
  Z.of_nat (length (bm_pixels t)) = bm_width t * bm_height t
  ∧ bm_width t * bm_height t ≤ INT_MAX.

(** A 3 by 2 texture for the examples, pixel [(r, c)] holding
    [(r, c, 0, 255)]. *)
Definition tex32 : Texture.t :=
  Texture.mk 3 2
    [mkPixel 0 0 0 255; mkPixel 0 1 0 255; mkPixel 0 2 0 255;
     mkPixel 1 0 0 255; mkPixel 1 1 0 255; mkPixel 1 2 0 255] 1.

End Render.

Section server.

(** [Chunk] stands for a non-null [Chunk*]: the identity of a chunk object.
    [NULL] is [None]. *)
Variable Chunk : Type.

(** The world generator [WG::WG] (WG.hh, not among the sources) is an
    object with one virtual method [getChunk(cid)] returning a [Chunk*];
    it is taken as a parameter, in state-passing style. *)
Variable WG : Type.
Variable WG_getChunk : WG → ChunkID → Chunk * WG.

(** The three collections of [class Server], all guarded by [L_chunks].
    [Set] and [Map] (Blok.hh) are containers without duplicate elements,
    respectively keys. *)
Record Server : Type := mkServer {
  chunkRequests : gset ChunkID;
  chunkRequestsInProgress : gset ChunkID;
  loadedChunks : gmap ChunkID Chunk
}.

(** ** [Server::getChunk] *)

(** The body between [L_chunks.lock()] and [L_chunks.unlock()]; the result
    is the returned pointer and the state left behind. *)
Definition getChunk (id : ChunkID) (request : bool) (srv : Server)
  : option Chunk * Server :=
  match loadedChunks srv !! id with
  | None =>
      if request then
        if bool_decide (id ∉ chunkRequests srv)
           && bool_decide (id ∉ chunkRequestsInProgress srv)
        then (None, mkServer ({[id]} ∪ chunkRequests srv)
                             (chunkRequestsInProgress srv)
                             (loadedChunks srv))
        else (None, srv)
      else (None, srv)
  | Some c => (Some c, srv)
  end.

(** ** [LocalServer::T_chunkLoad_run] *)

(** First critical section (lines 178-183): the requests are grabbed as
    the batch in progress and the request set is cleared. *)
Definition T_chunkLoad_drain (srv : Server) : Server :=
  let inProgress := chunkRequests srv in
  mkServer ∅ inProgress (loadedChunks srv).

(** Body of the loop of the second critical section (line 199):
    [loadedChunks[elem.first] = elem.second]. *)
Definition T_chunkLoad_store1 (srv : Server) (elem : ChunkID * Chunk) : Server :=
  mkServer (chunkRequests srv) (chunkRequestsInProgress srv)
           (<[elem.1 := elem.2]> (loadedChunks srv)).

(** Second critical section (lines 197-202): every entry of [res] is
    stored, then the set in progress is cleared. *)
Definition T_chunkLoad_store (res : gmap ChunkID Chunk) (srv : Server) : Server :=
  let srv' := foldl T_chunkLoad_store1 srv (map_to_list res) in
  mkServer (chunkRequests srv') ∅ (loadedChunks srv').

(** Where the loader thread stands in its loop body. *)
Inductive PC : Type :=
| PC_wait
    (* line 174: polling [chunkRequests.size()] *)
| PC_lock
    (* line 178: left the polling loop, about to take [L_chunks] *)
| PC_generate (todo : list ChunkID) (res : gmap ChunkID Chunk)
    (* lines 190-193: [todo] is what the range-for over
       [chunkRequestsInProgress] has still to visit (nothing changes that
       set while the loop runs); with [todo = []] the thread is about to
       take [L_chunks] at line 197 *).

(** The whole system: the shared collections, the generator object, the
    loader thread, and a history variable [generated] recording every call
    [worldGen->getChunk(cid)] with the pointer it returned (most recent
    first). *)
Record Sys : Type := mkSys {
  server : Server;
  worldGen : WG;
  pc : PC;
  generated : list (ChunkID * Chunk)
}.

(** [LocalServer()]: nothing requested, nothing loaded, the thread
    started.  The [stats] counters are set to zero there and never touched
    again in Server.hh; they are left out. *)
Definition LocalServer (wg : WG) : Sys :=
  mkSys (mkServer ∅ ∅ ∅) wg PC_wait [].

(** One atomic transition of the loader thread. *)
Definition T_chunkLoad_step (s : Sys) : Sys :=
  match pc s with
  | PC_wait =>
      if bool_decide (size (chunkRequests (server s)) = 0)
      then s (* nanosleep, poll again *)
      else mkSys (server s) (worldGen s) PC_lock (generated s)
  | PC_lock =>
      let srv' := T_chunkLoad_drain (server s) in
      mkSys srv' (worldGen s)
            (PC_generate (elements (chunkRequestsInProgress srv')) ∅)
            (generated s)
  | PC_generate (cid :: todo) res =>
      let (c, wg') := WG_getChunk (worldGen s) cid in
      mkSys (server s) wg' (PC_generate todo (<[cid := c]> res))
            ((cid, c) :: generated s)
  | PC_generate [] res =>
      mkSys (T_chunkLoad_store res (server s)) (worldGen s) PC_wait
            (generated s)
  end.

(** ** Interleavings *)

Inductive Event : Type :=
| EvGetChunk (id : ChunkID) (request : bool)  (* some thread calls [getChunk] *)
| EvLoader.                                   (* the loader thread moves *)

#[local] Instance Event_eq_dec : EqDecision Event.
Proof. solve_decision. Defined.

Definition step (e : Event) (s : Sys) : Sys :=
  match e with
  | EvGetChunk id request =>
      mkSys (getChunk id request (server s)).2 (worldGen s) (pc s) (generated s)
  | EvLoader => T_chunkLoad_step s
  end.

Definition run (evs : list Event) (s : Sys) : Sys :=
  foldl (λ s e, step e s) s evs.

Inductive reachable : Sys → Prop :=
| reachable_init wg : reachable (LocalServer wg)
| reachable_step e s : reachable s → reachable (step e s).

(** How often the generator has been called on [x]. *)
Definition gen_count (x : ChunkID) (s : Sys) : nat :=
  length (filter (λ e, e.1 = x) (generated s)).

(** Does event [e], taken in state [s], execute the first (grab) or the
    second (store back) critical section of the loader thread? *)
Definition is_drain (e : Event) (s : Sys) : bool :=
  match e, pc s with
  | EvLoader, PC_lock => true
  | _, _ => false
  end.

Definition is_store (e : Event) (s : Sys) : bool :=
  match e, pc s with
  | EvLoader, PC_generate [] _ => true
  | _, _ => false
  end.

(** Number of events of [evs], run from [s], that satisfy [f] in the state
    they are taken in. *)
Fixpoint count_steps (f : Event → Sys → bool) (evs : list Event) (s : Sys) : nat :=
  match evs with
  | [] => 0
  | e :: evs' => (if f e s then 1 else 0) + count_steps f evs' (step e s)
  end.

(** The identifiers some event of [evs] asks for with [request = true]. *)
Fixpoint requested (evs : list Event) : gset ChunkID :=
  match evs with
  | [] => ∅
  | EvGetChunk id true :: evs' => {[id]} ∪ requested evs'
  | _ :: evs' => requested evs'
  end.

(** Infinite interleavings: [exec σ n s] is the state after the first [n]
    events of [σ]; [σ] is fair when the loader thread is never starved. *)
Fixpoint exec (σ : nat → Event) (n : nat) (s : Sys) : Sys :=
  match n with
  | 0 => s
  | S n' => step (σ n') (exec σ n' s)
  end.

Definition fair (σ : nat → Event) : Prop :=
  ∀ n, ∃ m, n ≤ m ∧ σ m = EvLoader.

(** One turn of the loop body of the loader thread, run without
    interruption from the polling loop: poll, grab, one generator call per
    request, store back. *)
Definition T_chunkLoad_cycle (s : Sys) : Sys :=
  run (replicate (3 + size (chunkRequests (server s))) EvLoader) s.

(** ** The invariant of the protocol *)

(** The result map of the loader thread ([res] is declared at line 186). *)
Definition pc_res (p : PC) : gmap ChunkID Chunk :=
  match p with
  | PC_generate _ res => res
  | _ => ∅
  end.

Definition pc_ok (p : PC) (srv : Server) : Prop :=
  match p with
  | PC_wait => chunkRequestsInProgress srv = ∅
  | PC_lock => chunkRequestsInProgress srv = ∅ ∧ chunkRequests srv ≠ ∅
  | PC_generate todo res =>
      NoDup todo
      ∧ list_to_set todo ∪ dom res = chunkRequestsInProgress srv
      ∧ (∀ x, x ∈ todo → x ∉ dom res)
  end.

Record Inv (s : Sys) : Prop := mkInv {
  inv_req_prog : chunkRequests (server s) ## chunkRequestsInProgress (server s);
  inv_req_loaded : chunkRequests (server s) ## dom (loadedChunks (server s));
  inv_prog_loaded : chunkRequestsInProgress (server s) ## dom (loadedChunks (server s));
  inv_pc : pc_ok (pc s) (server s);
  inv_gen_nodup : NoDup (generated s).*1;
  inv_gen_dom : ∀ x, x ∈ (generated s).*1
                     ↔ x ∈ dom (loadedChunks (server s)) ∨ x ∈ dom (pc_res (pc s));
  inv_gen_val : ∀ x c, (loadedChunks (server s) !! x = Some c
                        ∨ pc_res (pc s) !! x = Some c) → (x, c) ∈ generated s
}.

(** How many store-back sections lie between [s] and a state with [x]
    loaded, for an [x] that is requested, in progress or loaded. *)
Definition stores_ahead (x : ChunkID) (s : Sys) : nat :=
  if bool_decide (x ∈ dom (loadedChunks (server s))) then 0
  else if bool_decide (x ∈ chunkRequestsInProgress (server s)) then 1
  else match pc s with
       | PC_generate _ _ => 2
       | _ => 1
       end.

Definition tracked (x : ChunkID) (s : Sys) : Prop :=
  x ∈ chunkRequests (server s)
  ∨ x ∈ chunkRequestsInProgress (server s)
  ∨ x ∈ dom (loadedChunks (server s)).

(** The phases an identifier goes through on its way to [loadedChunks]. *)
Definition in_batch (x : ChunkID) (n : nat) (s : Sys) : Prop :=
  Inv s ∧ x ∈ chunkRequestsInProgress (server s)
  ∧ ∃ todo res, pc s = PC_generate todo res ∧ length todo = n.

Definition at_lock (x : ChunkID) (s : Sys) : Prop :=
  Inv s ∧ x ∈ chunkRequests (server s) ∧ pc s = PC_lock.

Definition at_wait (x : ChunkID) (s : Sys) : Prop :=
  Inv s ∧ x ∈ chunkRequests (server s) ∧ pc s = PC_wait.

Definition behind_batch (x : ChunkID) (n : nat) (s : Sys) : Prop :=
  Inv s ∧ x ∈ chunkRequests (server s)
  ∧ ∃ todo res, pc s = PC_generate todo res ∧ length todo = n.

(** ** [LocalServer::~LocalServer] *)

(** The destructor (lines 144-154) deletes the generator, then the chunk
    of every entry of [loadedChunks], in the order of the map.  Its result
    here is what it passes to [delete]: the generator and the chunks. *)
Definition LocalServer_destroy (s : Sys) : WG * list Chunk :=
  (worldGen s, (map_to_list (loadedChunks (server s))).*2).

(** Successive calls [worldGen->getChunk(cid)] for the [cids], starting
    with the generator [wg]: the chunks returned, and the generator left. *)
Fixpoint WG_getChunks (wg : WG) (cids : list ChunkID) : list Chunk * WG :=
  match cids with
  | [] => ([], wg)
  | cid :: cids' =>
      let (c, wg') := WG_getChunk wg cid in
      let (cs, wg'') := WG_getChunks wg' cids' in
      (c :: cs, wg'')
  end.

(** A generator that allocates its chunks never returns the same chunk
    object twice. *)
Definition WG_fresh : Prop :=
  ∀ wg cids, NoDup (WG_getChunks wg cids).1.

(** Events that ask for nothing: a move of the loader thread, or a call
    of [getChunk] with [request = false]. *)
Definition asks_nothing (e : Event) : bool :=
  match e with
  | EvGetChunk _ request => negb request
  | EvLoader => true
  end.

(** Everything the server holds has been asked for. *)
Definition all_requested (R : gset ChunkID) (s : Sys) : Prop :=
  chunkRequests (server s) ⊆ R
  ∧ chunkRequestsInProgress (server s) ⊆ R
  ∧ dom (loadedChunks (server s)) ⊆ R
  ∧ (∀ x, x ∈ (generated s).*1 → x ∈ R)
  ∧ match pc s with
    | PC_generate todo res => (∀ x, x ∈ todo → x ∈ R) ∧ dom res ⊆ R
    | _ => True
    end.

(** ** Basic facts about the critical sections *)

Lemma store1_foldl_requests (l : list (ChunkID * Chunk)) (srv : Server) :
  chunkRequests (foldl T_chunkLoad_store1 srv l) = chunkRequests srv
  ∧ chunkRequestsInProgress (foldl T_chunkLoad_store1 srv l)
    = chunkRequestsInProgress srv.
Proof.
  revert srv. induction l as [|e l IH]; intros srv; simpl; [done|].
  destruct (IH (T_chunkLoad_store1 srv e)) as [-> ->]. done.
Qed.

Lemma store1_foldl_lookup (l : list (ChunkID * Chunk)) (srv : Server) (k : ChunkID) :
  NoDup l.*1 →
  loadedChunks (foldl T_chunkLoad_store1 srv l) !! k
  = match (list_to_map l : gmap ChunkID Chunk) !! k with
    | Some v => Some v
    | None => loadedChunks srv !! k
    end.
Proof.
  revert srv. induction l as [|[a v] l IH]; intros srv Hnd.
  - simpl. by rewrite lookup_empty.
  - rewrite fmap_cons in Hnd. apply NoDup_cons in Hnd as [Hnotin Hnd].
    change (foldl T_chunkLoad_store1 srv ((a, v) :: l))
      with (foldl T_chunkLoad_store1 (T_chunkLoad_store1 srv (a, v)) l).
    rewrite IH by done.
    change (loadedChunks (T_chunkLoad_store1 srv (a, v)))
      with (<[a := v]> (loadedChunks srv)).
    rewrite list_to_map_cons, !lookup_insert.
    destruct (decide (a = k)) as [->|Hne]; [|done].
    by rewrite (not_elem_of_list_to_map_1 _ _ Hnotin).
Qed.

Lemma store_loaded (res : gmap ChunkID Chunk) (srv : Server) :
  loadedChunks (T_chunkLoad_store res srv) = res ∪ loadedChunks srv.
Proof.
  apply map_eq; intros k. unfold T_chunkLoad_store; simpl.
  rewrite store1_foldl_lookup; [|apply NoDup_fst_map_to_list].
  rewrite list_to_map_to_list, lookup_union.
  destruct (res !! k), (loadedChunks srv !! k); done.
Qed.

Lemma store_requests (res : gmap ChunkID Chunk) (srv : Server) :
  chunkRequests (T_chunkLoad_store res srv) = chunkRequests srv.
Proof. unfold T_chunkLoad_store; simpl. apply store1_foldl_requests. Qed.

Lemma store_inProgress (res : gmap ChunkID Chunk) (srv : Server) :
  chunkRequestsInProgress (T_chunkLoad_store res srv) = ∅.
Proof. done. Qed.

Lemma getChunk_loaded (id : ChunkID) (request : bool) (srv : Server) :
  loadedChunks (getChunk id request srv).2 = loadedChunks srv.
Proof.
  unfold getChunk. destruct (loadedChunks srv !! id); [done|].
  destruct request; [|done]. by case_match.
Qed.

Lemma getChunk_inProgress (id : ChunkID) (request : bool) (srv : Server) :
  chunkRequestsInProgress (getChunk id request srv).2
  = chunkRequestsInProgress srv.
Proof.
  unfold getChunk. destruct (loadedChunks srv !! id); [done|].
  destruct request; [|done]. by case_match.
Qed.

Lemma getChunk_requests (id : ChunkID) (request : bool) (srv : Server) :
  chunkRequests (getChunk id request srv).2
  = if request
       && bool_decide (id ∉ dom (loadedChunks srv))
       && bool_decide (id ∉ chunkRequestsInProgress srv)
    then {[id]} ∪ chunkRequests srv
    else chunkRequests srv.
Proof.
  unfold getChunk.
  destruct (loadedChunks srv !! id) as [c|] eqn:Hl.
  - assert (id ∈ dom (loadedChunks srv)) by (apply elem_of_dom; eauto).
    rewrite (bool_decide_eq_false_2 (id ∉ dom _)); [|tauto].
    by rewrite andb_false_r.
  - assert (id ∉ dom (loadedChunks srv)) by by apply not_elem_of_dom.
    rewrite (bool_decide_eq_true_2 (id ∉ dom _)); [|done].
    destruct request; [|done]. simpl.
    repeat case_bool_decide; simpl; try done; set_solver.
Qed.

Lemma getChunk_result (id : ChunkID) (request : bool) (srv : Server) :
  (getChunk id request srv).1 = loadedChunks srv !! id.
Proof.
  unfold getChunk. destruct (loadedChunks srv !! id); [done|].
  destruct request; [|done]. by case_match.
Qed.

(** ** The invariant holds in every reachable state *)

Lemma Inv_init (wg : WG) : Inv (LocalServer wg).
Proof.
  split; simpl.
  - set_solver.
  - set_solver.
  - set_solver.
  - done.
  - constructor.
  - intros x. rewrite !dom_empty_L. set_solver.
  - intros x c [H|H]; by rewrite lookup_empty in H.
Qed.

Lemma Inv_getChunk (id : ChunkID) (request : bool) (s : Sys) :
  Inv s → Inv (step (EvGetChunk id request) s).
Proof.
  intros [H1 H2 H3 H4 H5 H6 H7].
  assert (Hsub : chunkRequests (server s)
                 ⊆ chunkRequests (getChunk id request (server s)).2).
  { rewrite getChunk_requests. case_match; set_solver. }
  split; simpl;
    rewrite ?getChunk_loaded, ?getChunk_inProgress; try done.
  - rewrite getChunk_requests.
    destruct request; simpl; [|done].
    repeat case_bool_decide; simpl; set_solver.
  - rewrite getChunk_requests.
    destruct request; simpl; [|done].
    repeat case_bool_decide; simpl; set_solver.
  - destruct (pc s); simpl in *; rewrite ?getChunk_inProgress; [done| |done].
    destruct H4 as [? Hne]. split; [done|]. set_solver.
Qed.

Lemma Inv_loader (s : Sys) : Inv s → Inv (T_chunkLoad_step s).
Proof.
  intros [H1 H2 H3 H4 H5 H6 H7]. unfold T_chunkLoad_step.
  destruct (pc s) as [| |[|cid todo] res] eqn:Hpc; simpl in *.
  - (* polling *)
    case_bool_decide as Hsz.
    + split; rewrite ?Hpc; done.
    + split; simpl; try done.
      split; [done|]. intros Hemp. apply Hsz. rewrite Hemp. apply size_empty.
  - (* first critical section *)
    destruct H4 as [Hprog Hne]. rewrite Hprog in *.
    split; simpl; try done.
    split_and!.
      * apply NoDup_elements.
      * rewrite dom_empty_L, list_to_set_elements_L. apply union_empty_r_L.
      * intros x _. rewrite dom_empty_L. apply not_elem_of_empty.
  - (* second critical section *)
    destruct H4 as (Hnd & Hdom & Hdisj).
    rewrite (left_id_L ∅ (∪)) in Hdom.
    pose proof (store_loaded res (server s)) as Hsl.
    pose proof (store_requests res (server s)) as Hsr.
    pose proof (store_inProgress res (server s)) as Hsp.
    destruct (T_chunkLoad_store res (server s)) as [req' prog' loaded'].
    simpl in Hsl, Hsr, Hsp. subst req' prog' loaded'.
    split; simpl; rewrite ?dom_union_L; try done.
    + clear H5 H6 H7 Hdisj. set_solver.
    + intros x. rewrite H6, dom_empty_L, elem_of_union, elem_of_empty. tauto.
    + intros x c [Hl|Hl]; [|by rewrite lookup_empty in Hl].
      apply H7. apply lookup_union_Some_raw in Hl. tauto.
  - (* one call of the generator *)
    destruct H4 as (Hnd & Hdom & Hdisj).
    apply NoDup_cons in Hnd as [Hcid Hnd].
    destruct (WG_getChunk (worldGen s) cid) as [c wg'] eqn:Hgen.
    assert (Hfresh : cid ∉ dom res) by (apply Hdisj; left).
    assert (Hin : cid ∈ chunkRequestsInProgress (server s)).
    { clear -Hdom. set_solver. }
    assert (Hnl : cid ∉ dom (loadedChunks (server s))).
    { intros ?. by apply (H3 cid). }
    split; simpl; try done.
    + split_and!; [done| |].
      * rewrite dom_insert_L. clear -Hdom. set_solver.
      * intros x Hx. rewrite dom_insert_L.
        assert (x ≠ cid) by (intros ->; done).
        assert (x ∉ dom res) by (apply Hdisj; by right).
        rewrite elem_of_union, elem_of_singleton. tauto.
    + apply NoDup_cons. split; [|done].
      rewrite H6. tauto.
    + intros x. rewrite dom_insert_L, elem_of_cons, H6.
      rewrite elem_of_union, elem_of_singleton. tauto.
    + intros x c' [Hl|Hl].
      * right. apply H7. by left.
      * apply lookup_insert_Some in Hl as [[-> ->]|[_ Hl]]; [left|right].
        apply H7. by right.
Qed.

Lemma Inv_step (e : Event) (s : Sys) : Inv s → Inv (step e s).
Proof. destruct e; [apply Inv_getChunk | apply Inv_loader]. Qed.

Lemma Inv_reachable (s : Sys) : reachable s → Inv s.
Proof. induction 1; [apply Inv_init | by apply Inv_step]. Qed.

Lemma Inv_run (evs : list Event) (s : Sys) : Inv s → Inv (run evs s).
Proof.
  revert s. induction evs as [|e evs IH]; intros s Hs; [done|].
  apply (IH (step e s)). by apply Inv_step.
Qed.

Lemma Inv_exec (σ : nat → Event) (n : nat) (s : Sys) : Inv s → Inv (exec σ n s).
Proof. intros Hs. induction n; simpl; [done | by apply Inv_step]. Qed.

Lemma reachable_run (evs : list Event) (s : Sys) :
  reachable s → reachable (run evs s).
Proof.
  revert s. induction evs as [|e evs IH]; intros s Hs; [done|].
  apply (IH (step e s)). by constructor.
Qed.

Lemma reachable_exec (σ : nat → Event) (n : nat) (s : Sys) :
  reachable s → reachable (exec σ n s).
Proof. intros Hs. induction n; simpl; [done | by constructor]. Qed.

(** ** Lookup *)

(** C3: [getChunk id request] returns the loaded chunk when [id] is loaded
    and leaves the state alone; when [id] is not loaded it returns null
    and, with [request] set, inserts [id] in the requests unless [id] is
    already requested or in progress; with [request] unset nothing
    changes.  The result is null exactly when [id] is not loaded: absence
    is a null result of a total function, never an error. *)
Theorem getChunk_spec (id : ChunkID) (request : bool) (srv : Server) :
  (∀ c, loadedChunks srv !! id = Some c →
        getChunk id request srv = (Some c, srv))
  ∧ (loadedChunks srv !! id = None → request = true →
     id ∉ chunkRequests srv → id ∉ chunkRequestsInProgress srv →
     getChunk id request srv
     = (None, mkServer ({[id]} ∪ chunkRequests srv)
                       (chunkRequestsInProgress srv) (loadedChunks srv)))
  ∧ (loadedChunks srv !! id = None → request = true →
     id ∈ chunkRequests srv ∨ id ∈ chunkRequestsInProgress srv →
     getChunk id request srv = (None, srv))
  ∧ (loadedChunks srv !! id = None → request = false →
     getChunk id request srv = (None, srv))
  ∧ ((getChunk id request srv).1 = None ↔ loadedChunks srv !! id = None).
Proof.
  unfold getChunk. split_and!.
  - by intros c ->.
  - intros -> -> Hreq Hprog.
    by rewrite !bool_decide_eq_true_2.
  - intros -> -> [Hreq|Hprog].
    + rewrite (bool_decide_eq_false_2 (id ∉ chunkRequests srv)); [done|tauto].
    + rewrite (bool_decide_eq_false_2 (id ∉ chunkRequestsInProgress srv));
        [|tauto].
      by rewrite andb_false_r.
  - by intros -> ->.
  - destruct (loadedChunks srv !! id); [done|].
    destruct request; [|done]. by case_match.
Qed.

(** C9: what [getChunk] returns does not depend on the [request] flag; the
    flag decides only whether [id] enters the requests. *)
Theorem getChunk_result_flag_independent (id : ChunkID) (srv : Server) :
  (getChunk id true srv).1 = (getChunk id false srv).1
  ∧ loadedChunks (getChunk id true srv).2 = loadedChunks (getChunk id false srv).2
  ∧ chunkRequestsInProgress (getChunk id true srv).2
    = chunkRequestsInProgress (getChunk id false srv).2
  ∧ (∀ x, x ≠ id →
          x ∈ chunkRequests (getChunk id true srv).2
          ↔ x ∈ chunkRequests (getChunk id false srv).2).
Proof.
  rewrite !getChunk_result, !getChunk_loaded, !getChunk_inProgress.
  split_and!; try done.
  intros x Hx. rewrite !getChunk_requests. simpl.
  case_match; [|done].
  rewrite elem_of_union, elem_of_singleton. tauto.
Qed.

(** ** The three collections *)

(** C2: in every reachable state the requests, the requests in progress
    and the loaded chunks are pairwise disjoint. *)
Theorem collections_disjoint (s : Sys) :
  reachable s →
  chunkRequests (server s) ## chunkRequestsInProgress (server s)
  ∧ chunkRequests (server s) ## dom (loadedChunks (server s))
  ∧ chunkRequestsInProgress (server s) ## dom (loadedChunks (server s)).
Proof. intros Hs. by destruct (Inv_reachable s Hs). Qed.

Lemma loaded_subseteq_step (e : Event) (s : Sys) :
  Inv s → loadedChunks (server s) ⊆ loadedChunks (server (step e s)).
Proof.
  intros HI. destruct e as [id request|]; simpl.
  - by rewrite getChunk_loaded.
  - unfold T_chunkLoad_step.
    destruct HI as [_ _ H3 H4 _ _ _].
    destruct (pc s) as [| |[|cid todo] res]; cbn -[T_chunkLoad_store] in *.
    + by case_bool_decide.
    + done.
    + rewrite store_loaded. apply map_union_subseteq_r.
      apply map_disjoint_dom. destruct H4 as (_ & Hdom & _).
      rewrite (left_id_L ∅ (∪)) in Hdom. by rewrite Hdom.
    + by destruct (WG_getChunk (worldGen s) cid).
Qed.

Lemma loaded_subseteq_run (evs : list Event) (s : Sys) :
  Inv s → loadedChunks (server s) ⊆ loadedChunks (server (run evs s)).
Proof.
  revert s. induction evs as [|e evs IH]; intros s HI; [done|].
  etrans; [by apply (loaded_subseteq_step e)|].
  apply (IH (step e s)). by apply Inv_step.
Qed.

(** C10: the loaded map only grows: whatever the operation (a call of
    [getChunk] with either flag, or any move of the loader thread: poll,
    grab, generate, store back), every binding of [loadedChunks] is still
    there, unchanged, afterwards. *)
Theorem loaded_monotone (e : Event) (s : Sys) :
  reachable s →
  ∀ x c, loadedChunks (server s) !! x = Some c →
         loadedChunks (server (step e s)) !! x = Some c.
Proof.
  intros Hs x c Hx.
  eapply lookup_weaken; [exact Hx|].
  apply loaded_subseteq_step. by apply Inv_reachable.
Qed.

(** C6: a loaded chunk stays loaded and stays the same chunk: after any
    further events [x] is still bound to [c], is neither requested nor in
    progress, and [getChunk] with either flag returns [c]. *)
Theorem loaded_stable (x : ChunkID) (c : Chunk) (s : Sys) :
  reachable s →
  loadedChunks (server s) !! x = Some c →
  ∀ evs,
    loadedChunks (server (run evs s)) !! x = Some c
    ∧ (x ∉ chunkRequests (server (run evs s)))
    ∧ (x ∉ chunkRequestsInProgress (server (run evs s)))
    ∧ (∀ request, (getChunk x request (server (run evs s))).1 = Some c).
Proof.
  intros Hs Hx evs.
  pose proof (Inv_reachable s Hs) as HI.
  assert (Hx' : loadedChunks (server (run evs s)) !! x = Some c).
  { eapply lookup_weaken; [exact Hx|]. by apply loaded_subseteq_run. }
  assert (Hd : x ∈ dom (loadedChunks (server (run evs s)))).
  { apply elem_of_dom. eauto. }
  destruct (Inv_run evs s HI) as [_ H2 H3 _ _ _ _].
  split_and!; [done| | |].
  - intros Hin. by apply (H2 x).
  - intros Hin. by apply (H3 x).
  - intros request. by rewrite getChunk_result.
Qed.

(** ** Grabbing the requests *)

Lemma run_cons (e : Event) (evs : list Event) (s : Sys) :
  run (e :: evs) s = run evs (step e s).
Proof. done. Qed.

Lemma run_app (evs1 evs2 : list Event) (s : Sys) :
  run (evs1 ++ evs2) s = run evs2 (run evs1 s).
Proof. apply foldl_app. Qed.

(** While a batch [P] is being generated (no store-back section is run),
    the set in progress and the loaded chunks do not move, the generator
    is called on members of [P] only, and the requests are exactly the
    identifiers asked for that are neither in [P] nor loaded. *)
Lemma generating_run (evs : list Event) :
  ∀ (s : Sys) (P R : gset ChunkID) (L : gmap ChunkID Chunk) todo res new log0,
    pc s = PC_generate todo res →
    chunkRequestsInProgress (server s) = P →
    loadedChunks (server s) = L →
    chunkRequests (server s) = R ∖ (P ∪ dom L) →
    list_to_set todo ∪ dom res = P →
    generated s = new ++ log0 →
    list_to_set new.*1 = dom res →
    count_steps is_store evs s = 0 →
    chunkRequestsInProgress (server (run evs s)) = P
    ∧ loadedChunks (server (run evs s)) = L
    ∧ chunkRequests (server (run evs s)) = (R ∪ requested evs) ∖ (P ∪ dom L)
    ∧ ∃ todo' res' new',
        pc (run evs s) = PC_generate todo' res'
        ∧ list_to_set todo' ∪ dom res' = P
        ∧ generated (run evs s) = new' ++ log0
        ∧ list_to_set new'.*1 = dom res'.
Proof.
  induction evs as [|e evs IH];
    intros s P R L todo res new log0 Hpc Hprog Hl Hreq Hbatch Hlog Hnew Hcount.
  - simpl. rewrite (right_id_L ∅ (∪)). split_and!; try done.
    by exists todo, res, new.
  - rewrite run_cons. simpl in Hcount.
    destruct e as [id request|].
    + (* a call of getChunk *)
      set (R' := if request then {[id]} ∪ R else R).
      destruct (IH (step (EvGetChunk id request) s) P R' L todo res new log0)
        as (H1 & H2 & H3 & H4); [simpl..|]; try done.
      * by rewrite getChunk_inProgress.
      * by rewrite getChunk_loaded.
      * rewrite getChunk_requests, Hreq, Hprog, Hl. subst R'.
        destruct request; simpl; [|done].
        repeat case_bool_decide; simpl; set_solver.
      * split_and!; try done. rewrite H3. subst R'.
        destruct request; [|done]. simpl. set_solver.
    + (* a move of the loader thread *)
      unfold is_store in Hcount. rewrite Hpc in Hcount.
      destruct todo as [|cid todo]; [lia|].
      assert (Hstep : ∃ c wg',
                 step EvLoader s
                 = mkSys (server s) wg' (PC_generate todo (<[cid := c]> res))
                         ((cid, c) :: generated s)).
      { simpl. unfold T_chunkLoad_step. rewrite Hpc.
        destruct (WG_getChunk (worldGen s) cid) as [c wg']. by exists c, wg'. }
      destruct Hstep as (c & wg' & Hstep). rewrite Hstep in *.
      destruct (IH (mkSys (server s) wg' (PC_generate todo (<[cid := c]> res))
                          ((cid, c) :: generated s))
                   P R L todo (<[cid := c]> res) ((cid, c) :: new) log0)
        as (H1 & H2 & H3 & H4); [simpl..|]; try done.
      * rewrite dom_insert_L. rewrite <- Hbatch. set_solver.
      * by rewrite Hlog.
      * rewrite dom_insert_L. rewrite <- Hnew. done.
Qed.

(** C4: the first critical section of the loader thread is one
    transition after which the set in progress is the request set as it
    was, the request set is empty and the loaded chunks are as before.
    The loop that follows visits exactly that snapshot: as long as the
    batch is not stored back, the set in progress stays the snapshot, the
    identifiers visited or still to be visited make up the snapshot, the
    generator has been called on the visited ones, and the request set,
    which started empty, holds exactly the identifiers asked for in the
    meantime that are neither in the snapshot nor loaded. *)
Theorem drain_snapshot (s : Sys) :
  pc s = PC_lock →
  server (step EvLoader s) = T_chunkLoad_drain (server s)
  ∧ chunkRequestsInProgress (server (step EvLoader s)) = chunkRequests (server s)
  ∧ chunkRequests (server (step EvLoader s)) = ∅
  ∧ loadedChunks (server (step EvLoader s)) = loadedChunks (server s)
  ∧ pc (step EvLoader s) = PC_generate (elements (chunkRequests (server s))) ∅
  ∧ (∀ evs, count_steps is_store evs (step EvLoader s) = 0 →
       let s' := run evs (step EvLoader s) in
       chunkRequestsInProgress (server s') = chunkRequests (server s)
       ∧ loadedChunks (server s') = loadedChunks (server s)
       ∧ chunkRequests (server s')
         = requested evs ∖ (chunkRequests (server s) ∪ dom (loadedChunks (server s)))
       ∧ ∃ todo res new,
           pc s' = PC_generate todo res
           ∧ list_to_set todo ∪ dom res = chunkRequests (server s)
           ∧ generated s' = new ++ generated s
           ∧ list_to_set new.*1 = dom res).
Proof.
  intros Hpc.
  assert (Hstep : step EvLoader s
                  = mkSys (T_chunkLoad_drain (server s)) (worldGen s)
                          (PC_generate (elements (chunkRequests (server s))) ∅)
                          (generated s)).
  { simpl. unfold T_chunkLoad_step. by rewrite Hpc. }
  rewrite Hstep. split_and!; try done.
  intros evs Hcount.
  destruct (generating_run evs
              (mkSys (T_chunkLoad_drain (server s)) (worldGen s)
                     (PC_generate (elements (chunkRequests (server s))) ∅)
                     (generated s))
              (chunkRequests (server s)) ∅ (loadedChunks (server s))
              (elements (chunkRequests (server s))) ∅ [] (generated s))
    as (H1 & H2 & H3 & H4); [simpl..|]; try done.
  - set_solver.
  - rewrite dom_empty_L, list_to_set_elements_L. set_solver.
  - cbv zeta. split_and!; try done. rewrite H3. by rewrite (left_id_L ∅ (∪)).
Qed.

(** ** Storing back *)

(** C5 (amended): the generated chunks of a batch are stored together in
    one critical section.  Each turn of its loop binds [id] to [chunk] in
    [loadedChunks] and touches nothing else, in particular not the set in
    progress; after the whole section every pair of [res] is loaded, the
    other bindings are as before, and the set in progress is emptied in
    one go.  In a reachable state about to store back, [res] holds one
    chunk per member of the batch in progress, so that this one
    transition loads the whole batch, each member with the chunk the
    generator returned for it. *)
Theorem store_commits_batch (res : gmap ChunkID Chunk) (srv : Server) :
  (∀ id chunk,
     loadedChunks (T_chunkLoad_store1 srv (id, chunk)) !! id = Some chunk
     ∧ (∀ x, x ≠ id → loadedChunks (T_chunkLoad_store1 srv (id, chunk)) !! x
                      = loadedChunks srv !! x)
     ∧ chunkRequestsInProgress (T_chunkLoad_store1 srv (id, chunk))
       = chunkRequestsInProgress srv
     ∧ chunkRequests (T_chunkLoad_store1 srv (id, chunk)) = chunkRequests srv)
  ∧ (∀ id chunk, res !! id = Some chunk →
                 loadedChunks (T_chunkLoad_store res srv) !! id = Some chunk)
  ∧ (∀ id, res !! id = None →
           loadedChunks (T_chunkLoad_store res srv) !! id = loadedChunks srv !! id)
  ∧ chunkRequestsInProgress (T_chunkLoad_store res srv) = ∅
  ∧ chunkRequests (T_chunkLoad_store res srv) = chunkRequests srv
  ∧ (∀ s, reachable s → pc s = PC_generate [] res →
          step EvLoader s
          = mkSys (T_chunkLoad_store res (server s)) (worldGen s) PC_wait
                  (generated s)
          ∧ dom res = chunkRequestsInProgress (server s)
          ∧ (∀ id, id ∈ chunkRequestsInProgress (server s) →
                   ∃ chunk, loadedChunks (server (step EvLoader s)) !! id
                            = Some chunk
                            ∧ (id, chunk) ∈ generated s)).
Proof.
  split_and!.
  - intros id chunk. simpl. split_and!; try done.
    + apply lookup_insert_eq.
    + intros x Hx. by apply lookup_insert_ne.
  - intros id chunk Hid. rewrite store_loaded.
    by apply lookup_union_Some_l.
  - intros id Hid. rewrite store_loaded. by apply lookup_union_r.
  - apply store_inProgress.
  - apply store_requests.
  - intros s Hs Hpc. pose proof (Inv_reachable s Hs) as HI.
    assert (Hstep : step EvLoader s
                    = mkSys (T_chunkLoad_store res (server s)) (worldGen s)
                            PC_wait (generated s)).
    { simpl. unfold T_chunkLoad_step. by rewrite Hpc. }
    assert (Hdom : dom res = chunkRequestsInProgress (server s)).
    { pose proof (inv_pc s HI) as Hok. rewrite Hpc in Hok.
      destruct Hok as (_ & Hdom & _). simpl in Hdom.
      by rewrite (left_id_L ∅ (∪)) in Hdom. }
    split_and!; [done..|].
    intros id Hid. rewrite <- Hdom in Hid.
    apply elem_of_dom in Hid as [chunk Hchunk]. exists chunk. split.
    + rewrite Hstep. cbn -[T_chunkLoad_store]. rewrite store_loaded.
      by apply lookup_union_Some_l.
    + apply (inv_gen_val s HI). right. by rewrite Hpc.
Qed.

(** ** Calls of the generator *)

Lemma filter_fst_length_le (x : ChunkID) (l : list (ChunkID * Chunk)) :
  NoDup l.*1 → length (filter (λ e, e.1 = x) l) ≤ 1.
Proof.
  induction l as [|[a c] l IH]; intros Hnd; [simpl; lia|].
  rewrite fmap_cons in Hnd. apply NoDup_cons in Hnd as [Ha Hnd].
  rewrite filter_cons. case_decide as Hx; [|by apply IH].
  simpl in Hx. subst a.
  assert (Hnil : filter (λ e : ChunkID * Chunk, e.1 = x) l = []).
  { apply elem_of_nil_inv. intros [b d] Hb.
    apply list_elem_of_filter in Hb as [Hb1 Hb2]. simpl in Hb1. subst b.
    apply Ha. apply list_elem_of_fmap. by exists (x, d). }
  rewrite Hnil. simpl. lia.
Qed.

Lemma filter_fst_length_ge (x : ChunkID) (l : list (ChunkID * Chunk)) :
  x ∈ l.*1 → 1 ≤ length (filter (λ e, e.1 = x) l).
Proof.
  intros Hx. apply list_elem_of_fmap in Hx as ([a c] & -> & Hin).
  assert (Hf : (a, c) ∈ filter (λ e : ChunkID * Chunk, e.1 = (a, c).1) l).
  { by apply list_elem_of_filter. }
  destruct (filter _ l); [by apply elem_of_nil in Hf | simpl; lia].
Qed.

Lemma filter_fst_length_0 (x : ChunkID) (l : list (ChunkID * Chunk)) :
  x ∉ l.*1 → length (filter (λ e, e.1 = x) l) = 0.
Proof.
  intros Hx. apply length_zero_iff_nil, elem_of_nil_inv. intros [b d] Hb.
  apply list_elem_of_filter in Hb as [Hb1 Hb2]. simpl in Hb1. subst b.
  apply Hx. apply list_elem_of_fmap. by exists (x, d).
Qed.

Lemma gen_count_le_1 (x : ChunkID) (s : Sys) : Inv s → gen_count x s ≤ 1.
Proof. intros HI. apply filter_fst_length_le, HI. Qed.

Lemma gen_count_loaded (x : ChunkID) (s : Sys) :
  Inv s → x ∈ dom (loadedChunks (server s)) → gen_count x s = 1.
Proof.
  intros HI Hx. pose proof (gen_count_le_1 x s HI).
  assert (1 ≤ gen_count x s); [|lia].
  apply filter_fst_length_ge. apply (inv_gen_dom s HI). by left.
Qed.

Lemma gen_count_requested (x : ChunkID) (s : Sys) :
  Inv s → x ∈ chunkRequests (server s) → gen_count x s = 0.
Proof.
  intros HI Hx. apply filter_fst_length_0.
  rewrite (inv_gen_dom s HI). intros [Hl|Hr].
  - by apply (inv_req_loaded s HI x).
  - apply (inv_req_prog s HI x Hx).
    pose proof (inv_pc s HI) as Hpc.
    destruct (pc s) as [| |todo res]; simpl in *;
      try (by rewrite dom_empty_L in Hr; apply elem_of_empty in Hr).
    destruct Hpc as (_ & <- & _). by apply elem_of_union_r.
Qed.

(** ** Progress under fair interleavings *)

Lemma fair_next_loader (σ : nat → Event) :
  fair σ →
  ∀ k, ∃ m, k ≤ m ∧ σ m = EvLoader ∧ ∀ j, k ≤ j < m → σ j ≠ EvLoader.
Proof.
  intros Hfair k. destruct (Hfair k) as (m0 & Hle & Hm0).
  remember (m0 - k) as d eqn:Hd. revert k Hle Hd.
  induction d as [|d IH]; intros k Hle Hd.
  - assert (m0 = k) as -> by lia. exists k. split_and!; [lia|done|lia].
  - destruct (decide (σ k = EvLoader)) as [Hk|Hk].
    + exists k. split_and!; [lia|done|lia].
    + destruct (IH (S k)) as (m & Hm1 & Hm2 & Hm3); [lia|lia|].
      exists m. split_and!; [lia|done|].
      intros j Hj. destruct (decide (j = k)) as [->|]; [done|].
      apply Hm3. lia.
Qed.

(** A property that calls of [getChunk] preserve still holds when the
    loader thread makes its next move. *)
Lemma stable_until_loader (P : Sys → Prop) (σ : nat → Event) (s : Sys) :
  fair σ →
  (∀ id request s', P s' → P (step (EvGetChunk id request) s')) →
  ∀ k, P (exec σ k s) →
       ∃ m, k ≤ m ∧ P (exec σ m s)
            ∧ exec σ (S m) s = T_chunkLoad_step (exec σ m s).
Proof.
  intros Hfair Hstable k Hk.
  destruct (fair_next_loader σ Hfair k) as (m & Hle & Hm & Hbefore).
  exists m. split_and!; [done| |by simpl; rewrite Hm].
  clear Hm. induction m as [|m IH].
  - by assert (k = 0) as -> by lia.
  - destruct (decide (k = S m)) as [->|Hne]; [done|].
    simpl. destruct (σ m) as [id request|] eqn:Hσ.
    + apply Hstable, IH; [lia|]. intros j Hj. apply Hbefore. lia.
    + exfalso. apply (Hbefore m); [lia|done].
Qed.

Lemma getChunk_requests_mono (id : ChunkID) (request : bool) (srv : Server) :
  chunkRequests srv ⊆ chunkRequests (getChunk id request srv).2.
Proof.
  rewrite getChunk_requests. case_match; [|done]. apply union_subseteq_r.
Qed.

Lemma in_batch_stable x n id request s :
  in_batch x n s → in_batch x n (step (EvGetChunk id request) s).
Proof.
  intros (HI & Hx & Hpc). split_and!; [by apply Inv_getChunk| |done].
  simpl. by rewrite getChunk_inProgress.
Qed.

Lemma at_lock_stable x id request s :
  at_lock x s → at_lock x (step (EvGetChunk id request) s).
Proof.
  intros (HI & Hx & Hpc). split_and!; [by apply Inv_getChunk| |done].
  simpl. by apply getChunk_requests_mono.
Qed.

Lemma at_wait_stable x id request s :
  at_wait x s → at_wait x (step (EvGetChunk id request) s).
Proof.
  intros (HI & Hx & Hpc). split_and!; [by apply Inv_getChunk| |done].
  simpl. by apply getChunk_requests_mono.
Qed.

Lemma behind_batch_stable x n id request s :
  behind_batch x n s → behind_batch x n (step (EvGetChunk id request) s).
Proof.
  intros (HI & Hx & Hpc). split_and!; [by apply Inv_getChunk| |done].
  simpl. by apply getChunk_requests_mono.
Qed.

Lemma in_batch_loaded (σ : nat → Event) (s : Sys) (x : ChunkID) :
  fair σ →
  ∀ n k, in_batch x n (exec σ k s) →
         ∃ m, x ∈ dom (loadedChunks (server (exec σ m s))).
Proof.
  intros Hfair n. induction n as [|n IH]; intros k Hk.
  - destruct (stable_until_loader (in_batch x 0) σ s Hfair) with (k := k)
      as (m & _ & (HI & Hx & todo & res & Hpc & Hlen) & Hstep);
      [apply in_batch_stable|done|].
    exists (S m). rewrite Hstep. unfold T_chunkLoad_step. rewrite Hpc.
    destruct todo; [|done]. cbn -[T_chunkLoad_store].
    rewrite store_loaded, dom_union_L. apply elem_of_union_l.
    pose proof (inv_pc _ HI) as Hok. rewrite Hpc in Hok.
    destruct Hok as (_ & Hdom & _). simpl in Hdom.
    rewrite (left_id_L ∅ (∪)) in Hdom. by rewrite Hdom.
  - destruct (stable_until_loader (in_batch x (S n)) σ s Hfair) with (k := k)
      as (m & _ & (HI & Hx & todo & res & Hpc & Hlen) & Hstep);
      [apply in_batch_stable|done|].
    apply (IH (S m)). split_and!.
    + rewrite Hstep. by apply Inv_loader.
    + rewrite Hstep. unfold T_chunkLoad_step. rewrite Hpc.
      destruct todo as [|cid todo]; [done|].
      by destruct (WG_getChunk _ cid).
    + rewrite Hstep. unfold T_chunkLoad_step. rewrite Hpc.
      destruct todo as [|cid todo]; [done|].
      destruct (WG_getChunk _ cid). simpl. eexists _, _. split; [done|].
      simpl in Hlen. lia.
Qed.

Lemma at_lock_loaded (σ : nat → Event) (s : Sys) (x : ChunkID) :
  fair σ →
  ∀ k, at_lock x (exec σ k s) →
       ∃ m, x ∈ dom (loadedChunks (server (exec σ m s))).
Proof.
  intros Hfair k Hk.
  destruct (stable_until_loader (at_lock x) σ s Hfair) with (k := k)
    as (m & _ & (HI & Hx & Hpc) & Hstep); [apply at_lock_stable|done|].
  apply (in_batch_loaded σ s x Hfair
           (length (elements (chunkRequests (server (exec σ m s))))) (S m)).
  split_and!.
  - rewrite Hstep. by apply Inv_loader.
  - rewrite Hstep. unfold T_chunkLoad_step. by rewrite Hpc.
  - rewrite Hstep. unfold T_chunkLoad_step. rewrite Hpc. simpl.
    by eexists _, _.
Qed.

Lemma at_wait_loaded (σ : nat → Event) (s : Sys) (x : ChunkID) :
  fair σ →
  ∀ k, at_wait x (exec σ k s) →
       ∃ m, x ∈ dom (loadedChunks (server (exec σ m s))).
Proof.
  intros Hfair k Hk.
  destruct (stable_until_loader (at_wait x) σ s Hfair) with (k := k)
    as (m & _ & (HI & Hx & Hpc) & Hstep); [apply at_wait_stable|done|].
  apply (at_lock_loaded σ s x Hfair (S m)).
  assert (Hsz : size (chunkRequests (server (exec σ m s))) ≠ 0).
  { intros Hsz. apply size_empty_inv in Hsz.
    apply (not_elem_of_empty (C := gset ChunkID) x). by rewrite <- Hsz. }
  rewrite Hstep. unfold T_chunkLoad_step. rewrite Hpc.
  rewrite bool_decide_eq_false_2 by done.
  split_and!; [|done..].
  pose proof (Inv_loader _ HI) as HI'. unfold T_chunkLoad_step in HI'.
  rewrite Hpc in HI'. by rewrite bool_decide_eq_false_2 in HI' by done.
Qed.

Lemma behind_batch_loaded (σ : nat → Event) (s : Sys) (x : ChunkID) :
  fair σ →
  ∀ n k, behind_batch x n (exec σ k s) →
         ∃ m, x ∈ dom (loadedChunks (server (exec σ m s))).
Proof.
  intros Hfair n. induction n as [|n IH]; intros k Hk.
  - destruct (stable_until_loader (behind_batch x 0) σ s Hfair) with (k := k)
      as (m & _ & (HI & Hx & todo & res & Hpc & Hlen) & Hstep);
      [apply behind_batch_stable|done|].
    apply (at_wait_loaded σ s x Hfair (S m)).
    pose proof (Inv_loader _ HI) as HI'.
    rewrite Hstep. unfold T_chunkLoad_step in *. rewrite Hpc in *.
    destruct todo; [|done]. split_and!; [done| |done].
    cbn -[T_chunkLoad_store]. by rewrite store_requests.
  - destruct (stable_until_loader (behind_batch x (S n)) σ s Hfair) with (k := k)
      as (m & _ & (HI & Hx & todo & res & Hpc & Hlen) & Hstep);
      [apply behind_batch_stable|done|].
    apply (IH (S m)).
    pose proof (Inv_loader _ HI) as HI'.
    rewrite Hstep. unfold T_chunkLoad_step in *. rewrite Hpc in *.
    destruct todo as [|cid todo]; [done|].
    destruct (WG_getChunk _ cid). split_and!; [done..|].
    simpl. eexists _, _. split; [done|]. simpl in Hlen. lia.
Qed.

Lemma eventually_loaded (σ : nat → Event) (s : Sys) (x : ChunkID) :
  Inv s → tracked x s → fair σ →
  ∃ m, x ∈ dom (loadedChunks (server (exec σ m s))).
Proof.
  intros HI Hx Hfair.
  destruct Hx as [Hx|[Hx|Hx]].
  - destruct (pc s) as [| |todo res] eqn:Hpc.
    + by apply (at_wait_loaded σ s x Hfair 0).
    + by apply (at_lock_loaded σ s x Hfair 0).
    + apply (behind_batch_loaded σ s x Hfair (length todo) 0).
      split_and!; [done..|]. by eexists _, _.
  - pose proof (inv_pc _ HI) as Hok.
    destruct (pc s) as [| |todo res] eqn:Hpc; simpl in Hok.
    + rewrite Hok in Hx. by apply elem_of_empty in Hx.
    + destruct Hok as [Hok _]. rewrite Hok in Hx. by apply elem_of_empty in Hx.
    + apply (in_batch_loaded σ s x Hfair (length todo) 0).
      split_and!; [done..|]. by eexists _, _.
  - by exists 0.
Qed.

Lemma loaded_exec_mono (σ : nat → Event) (s : Sys) (x : ChunkID) (n m : nat) :
  Inv s → n ≤ m →
  x ∈ dom (loadedChunks (server (exec σ n s))) →
  x ∈ dom (loadedChunks (server (exec σ m s))).
Proof.
  intros HI Hle Hx. induction Hle as [|m Hle IH]; [done|].
  simpl. eapply subseteq_dom; [|exact IH].
  apply loaded_subseteq_step. by apply Inv_exec.
Qed.

Lemma tracked_after_request (x : ChunkID) (s : Sys) :
  tracked x (step (EvGetChunk x true) s).
Proof.
  unfold tracked. simpl.
  rewrite getChunk_loaded, getChunk_inProgress, getChunk_requests. simpl.
  destruct (decide (x ∈ dom (loadedChunks (server s)))) as [Hl|Hl]; [tauto|].
  destruct (decide (x ∈ chunkRequestsInProgress (server s))) as [Hp|Hp];
    [tauto|].
  rewrite !bool_decide_eq_true_2 by done. simpl.
  left. apply elem_of_union_l. by apply elem_of_singleton.
Qed.

(** C1: requests are deduplicated.  In every reachable state [x] is not
    both requested and in progress, and the generator has been called on
    [x] at most once; and once [getChunk(x, true)] has been called, every
    fair interleaving, whatever further calls it contains, reaches a point
    from which on the generator has been called on [x] exactly once. *)
Theorem request_dedup (x : ChunkID) (s : Sys) :
  reachable s →
  ¬ (x ∈ chunkRequests (server s) ∧ x ∈ chunkRequestsInProgress (server s))
  ∧ gen_count x s ≤ 1
  ∧ (∀ σ, fair σ →
          ∃ n, ∀ m, n ≤ m →
                    gen_count x (exec σ m (step (EvGetChunk x true) s)) = 1).
Proof.
  intros Hs. pose proof (Inv_reachable s Hs) as HI. split_and!.
  - intros [Hreq Hprog]. by apply (inv_req_prog s HI x).
  - by apply gen_count_le_1.
  - intros σ Hfair.
    assert (HI' : Inv (step (EvGetChunk x true) s)) by by apply Inv_step.
    destruct (eventually_loaded σ _ x HI' (tracked_after_request x s) Hfair)
      as [n Hn].
    exists n. intros m Hm. apply gen_count_loaded; [by apply Inv_exec|].
    by apply (loaded_exec_mono σ _ x n m).
Qed.

(** ** Requests that arrive while a batch is generated *)

Lemma stores_ahead_step (x : ChunkID) (e : Event) (s : Sys) :
  Inv s → tracked x s →
  tracked x (step e s)
  ∧ stores_ahead x (step e s)
    = stores_ahead x s - (if is_store e s then 1 else 0).
Proof.
  intros HI Hx. unfold tracked, stores_ahead, is_store in *.
  destruct e as [id request|]; simpl.
  - rewrite getChunk_loaded, getChunk_inProgress.
    split; [|destruct (pc s); lia].
    pose proof (getChunk_requests_mono id request (server s)) as Hsub.
    destruct Hx as [Hx|Hx]; [left; by apply Hsub | by right].
  - pose proof (inv_pc s HI) as Hok.
    pose proof (inv_req_prog s HI x) as Hd1.
    unfold T_chunkLoad_step.
    destruct (pc s) as [| |[|cid todo] res] eqn:Hpc; simpl in Hok.
    + (* polling *)
      case_bool_decide; rewrite ?Hpc; simpl; (split; [done|]);
        repeat case_bool_decide; lia.
    + (* first critical section *)
      destruct Hok as [Hok _]. simpl. rewrite Hok in *.
      split.
      * destruct Hx as [Hx|[Hx|Hx]]; [tauto| |tauto].
        by apply elem_of_empty in Hx.
      * destruct Hx as [Hx|[Hx|Hx]].
        -- repeat case_bool_decide; try lia; tauto.
        -- by apply elem_of_empty in Hx.
        -- rewrite !bool_decide_eq_true_2 by done. lia.
    + (* second critical section *)
      destruct Hok as (_ & Hdom & _). rewrite (left_id_L ∅ (∪)) in Hdom.
      cbn -[T_chunkLoad_store].
      rewrite store_loaded, store_requests, dom_union_L, <- Hdom.
      split.
      * destruct Hx as [Hx|[Hx|Hx]]; [by left|right; right..].
        -- apply elem_of_union_l. by rewrite Hdom.
        -- by apply elem_of_union_r.
      * rewrite Hdom in *.
        repeat case_bool_decide; rewrite ?elem_of_union in *; try lia; tauto.
    + (* one call of the generator *)
      destruct (WG_getChunk (worldGen s) cid). simpl.
      split; [done|]. repeat case_bool_decide; lia.
Qed.

Lemma stores_ahead_run (x : ChunkID) (evs : list Event) (s : Sys) :
  Inv s → tracked x s →
  stores_ahead x (run evs s) = stores_ahead x s - count_steps is_store evs s.
Proof.
  revert s. induction evs as [|e evs IH]; intros s HI Hx; simpl; [lia|].
  destruct (stores_ahead_step x e s HI Hx) as [Hx' Heq].
  change (run (e :: evs) s) with (run evs (step e s)).
  rewrite IH by (done || by apply Inv_step). rewrite Heq. lia.
Qed.

Lemma stores_ahead_0 (x : ChunkID) (s : Sys) :
  stores_ahead x s = 0 ↔ x ∈ dom (loadedChunks (server s)).
Proof.
  unfold stores_ahead. repeat case_bool_decide; destruct (pc s);
    split; (done || lia).
Qed.

Lemma requested_until_drain (x : ChunkID) (evs : list Event) (s : Sys) :
  x ∈ chunkRequests (server s) →
  count_steps is_drain evs s = 0 →
  x ∈ chunkRequests (server (run evs s)).
Proof.
  revert s. induction evs as [|e evs IH]; intros s Hx Hcount; [done|].
  simpl in Hcount. change (run (e :: evs) s) with (run evs (step e s)).
  apply IH; [|lia].
  destruct e as [id request|]; simpl.
  - by apply getChunk_requests_mono.
  - unfold is_drain in Hcount. unfold T_chunkLoad_step.
    destruct (pc s) as [| |[|cid todo] res]; [|lia| |].
    + by case_bool_decide.
    + cbn -[T_chunkLoad_store]. by rewrite store_requests.
    + by destruct (WG_getChunk (worldGen s) cid).
Qed.

(** C8: a request made while another batch is generated is not lost.
    With [A] in progress, and [B] neither in progress nor loaded, a call
    [getChunk(B, true)] puts [B] in the requests; [B] stays there, not
    generated, until the loader thread grabs the requests again; [B] is
    not stored with the batch of [A]; and once the loader thread has
    stored back twice (the batch of [A], then the next one) [B] is loaded
    with the chunk of the one generator call made for it.  Under a fair
    interleaving this does happen. *)
Theorem overlapping_request_served (A B : ChunkID) (s : Sys) :
  reachable s →
  A ∈ chunkRequestsInProgress (server s) →
  B ∉ chunkRequestsInProgress (server s) →
  loadedChunks (server s) !! B = None →
  let s1 := step (EvGetChunk B true) s in
  B ∈ chunkRequests (server s1)
  ∧ (∀ evs, count_steps is_drain evs s1 = 0 →
            B ∈ chunkRequests (server (run evs s1))
            ∧ gen_count B (run evs s1) = 0)
  ∧ (∀ evs, count_steps is_store evs s1 ≤ 1 →
            loadedChunks (server (run evs s1)) !! B = None)
  ∧ (∀ evs, 2 ≤ count_steps is_store evs s1 →
            ∃ c, loadedChunks (server (run evs s1)) !! B = Some c
                 ∧ (B, c) ∈ generated (run evs s1)
                 ∧ gen_count B (run evs s1) = 1)
  ∧ (∀ σ, fair σ →
          ∃ n, ∀ m, n ≤ m → is_Some (loadedChunks (server (exec σ m s1)) !! B)).
Proof.
  intros Hs HA HB HBl s1.
  pose proof (Inv_reachable s Hs) as HI.
  assert (HI1 : Inv s1) by by apply Inv_step.
  assert (Hnl : B ∉ dom (loadedChunks (server s))) by by apply not_elem_of_dom.
  assert (Hreq : B ∈ chunkRequests (server s1)).
  { subst s1. simpl. rewrite getChunk_requests. simpl.
    rewrite !bool_decide_eq_true_2 by done. simpl.
    apply elem_of_union_l. by apply elem_of_singleton. }
  assert (Htr : tracked B s1) by by left.
  assert (Hahead : stores_ahead B s1 = 2).
  { unfold stores_ahead. subst s1. simpl.
    rewrite getChunk_loaded, getChunk_inProgress.
    rewrite !bool_decide_eq_false_2 by done.
    pose proof (inv_pc s HI) as Hok.
    destruct (pc s) as [| |todo res]; simpl in Hok; [| |done].
    - rewrite Hok in HA. by apply elem_of_empty in HA.
    - destruct Hok as [Hok _]. rewrite Hok in HA. by apply elem_of_empty in HA. }
  split_and!; [done| | | |].
  - intros evs Hcount.
    assert (B ∈ chunkRequests (server (run evs s1)))
      by by apply requested_until_drain.
    split; [done|]. apply gen_count_requested; [by apply Inv_run|done].
  - intros evs Hcount. apply not_elem_of_dom. intros Hl.
    apply stores_ahead_0 in Hl.
    rewrite stores_ahead_run in Hl by done. lia.
  - intros evs Hcount.
    assert (Hl : B ∈ dom (loadedChunks (server (run evs s1)))).
    { apply stores_ahead_0. rewrite stores_ahead_run by done. lia. }
    pose proof (Inv_run evs s1 HI1) as HIr.
    apply elem_of_dom in Hl as Hc. destruct Hc as [c Hc]. exists c.
    split_and!; [done| |by apply gen_count_loaded].
    apply (inv_gen_val _ HIr). by left.
  - intros σ Hfair.
    destruct (eventually_loaded σ s1 B HI1 Htr Hfair) as [n Hn].
    exists n. intros m Hm. apply elem_of_dom.
    by apply (loaded_exec_mono σ s1 B n m).
Qed.

(** ** One whole turn of the loader thread *)

(** The generation loop, run without interruption on [todo]: one
    generator call per element, each result entered in [res]. *)
Lemma generate_loop (todo : list ChunkID) :
  ∀ srv wg res log,
    NoDup todo →
    ∃ wg' res' new,
      run (replicate (length todo) EvLoader)
          (mkSys srv wg (PC_generate todo res) log)
      = mkSys srv wg' (PC_generate [] res') (new ++ log)
      ∧ new.*1 = reverse todo
      ∧ (∀ x c, (x, c) ∈ new →
                res' !! x = Some c ∧ ∃ wg_x, (WG_getChunk wg_x x).1 = c)
      ∧ (∀ x, x ∉ todo → res' !! x = res !! x).
Proof.
  induction todo as [|cid todo IH]; intros srv wg res log Hnd.
  - exists wg, res, []. split_and!; try done.
    intros x c Hx. by apply elem_of_nil in Hx.
  - apply NoDup_cons in Hnd as [Hcid Hnd].
    destruct (WG_getChunk wg cid) as [c wg1] eqn:Hgen.
    destruct (IH srv wg1 (<[cid := c]> res) ((cid, c) :: log) Hnd)
      as (wg' & res' & new & Hrun & Hfst & Hin & Hout).
    exists wg', res', (new ++ [(cid, c)]).
    split_and!.
    + change (replicate (length (cid :: todo)) EvLoader)
        with (EvLoader :: replicate (length todo) EvLoader).
      rewrite run_cons.
      assert (Hstep : step EvLoader (mkSys srv wg (PC_generate (cid :: todo) res) log)
                      = mkSys srv wg1 (PC_generate todo (<[cid := c]> res))
                              ((cid, c) :: log)).
      { simpl. unfold T_chunkLoad_step. simpl. by rewrite Hgen. }
      rewrite Hstep, Hrun. by rewrite <- app_assoc.
    + rewrite fmap_app, Hfst, reverse_cons. done.
    + intros x c' Hx. apply elem_of_app in Hx as [Hx|Hx].
      * by apply Hin.
      * apply list_elem_of_singleton in Hx. injection Hx as -> ->.
        split.
        -- rewrite Hout by done. apply lookup_insert_eq.
        -- exists wg. by rewrite Hgen.
    + intros x Hx. apply not_elem_of_cons in Hx as [Hne Hx].
      rewrite Hout by done. by apply lookup_insert_ne.
Qed.

Lemma filter_fst_unique (x : ChunkID) (c : Chunk) (l : list (ChunkID * Chunk)) :
  NoDup l.*1 → (x, c) ∈ l → filter (λ e, e.1 = x) l = [(x, c)].
Proof.
  induction l as [|[a d] l IH]; intros Hnd Hin.
  - by apply elem_of_nil in Hin.
  - rewrite fmap_cons in Hnd. apply NoDup_cons in Hnd as [Ha Hnd].
    rewrite filter_cons. simpl.
    apply elem_of_cons in Hin as [Heq|Hin].
    + injection Heq as <- <-. rewrite decide_True by done. f_equal.
      apply elem_of_nil_inv. intros [b e] Hb.
      apply list_elem_of_filter in Hb as [Hb1 Hb2]. simpl in Hb1. subst b.
      apply Ha. apply list_elem_of_fmap. by exists (x, e).
    + rewrite decide_False; [by apply IH|].
      intros ->. apply Ha. apply list_elem_of_fmap. by exists (x, c).
Qed.

(** C7: the scenario on [ChunkID{0,0,0}].  From a state in which [id0]
    is neither requested, nor in progress, nor loaded, and the loader
    thread is at the top of its loop: after [getChunk(id0, true)] a call
    [getChunk(id0, false)] returns null; after one turn of the loader
    thread (grab, generate, store back) it returns the chunk [c] that the
    one generator call made on [id0] in that turn returned. *)
Theorem scenario_request_then_cycle
    (srv : Server) (wg : WG) (log : list (ChunkID * Chunk)) :
  id0 ∉ chunkRequests srv →
  id0 ∉ chunkRequestsInProgress srv →
  loadedChunks srv !! id0 = None →
  let s1 := step (EvGetChunk id0 true) (mkSys srv wg PC_wait log) in
  let s2 := T_chunkLoad_cycle s1 in
  (getChunk id0 false (server s1)).1 = None
  ∧ ∃ c new,
      (getChunk id0 false (server s2)).1 = Some c
      ∧ generated s2 = new ++ log
      ∧ filter (λ e, e.1 = id0) new = [(id0, c)]
      ∧ ∃ wg_k, (WG_getChunk wg_k id0).1 = c.
Proof.
  intros Hreq Hprog Hl s1 s2.
  assert (Hs1 : s1 = mkSys (mkServer ({[id0]} ∪ chunkRequests srv)
                                     (chunkRequestsInProgress srv)
                                     (loadedChunks srv))
                           wg PC_wait log).
  { subst s1. simpl. unfold getChunk. rewrite Hl.
    by rewrite !bool_decide_eq_true_2. }
  split.
  - rewrite Hs1. simpl. unfold getChunk. simpl. by rewrite Hl.
  - set (P := {[id0]} ∪ chunkRequests srv) in *.
    assert (Hsz : size P ≠ 0).
    { intros Hsz. apply size_empty_inv in Hsz.
      apply (not_elem_of_empty (C := gset ChunkID) id0).
      rewrite <- Hsz. subst P. apply elem_of_union_l. by apply elem_of_singleton. }
    destruct (generate_loop (elements P)
                (T_chunkLoad_drain (mkServer P (chunkRequestsInProgress srv)
                                             (loadedChunks srv)))
                wg ∅ log (NoDup_elements P))
      as (wg' & res' & new & Hrun & Hfst & Hin & Hout).
    assert (Hs2 : s2 = mkSys (T_chunkLoad_store res'
                                (mkServer ∅ P (loadedChunks srv)))
                             wg' PC_wait (new ++ log)).
    { subst s2. unfold T_chunkLoad_cycle. rewrite Hs1.
      cbn [server chunkRequests].
      assert (Hlen : 3 + size P = 2 + (length (elements P) + 1))
        by (unfold size, set_size; simpl; lia).
      rewrite Hlen, !replicate_add.
      rewrite run_app, run_app.
      assert (Hfirst : run (replicate 2 EvLoader)
                (mkSys (mkServer P (chunkRequestsInProgress srv)
                                 (loadedChunks srv)) wg PC_wait log)
              = mkSys (T_chunkLoad_drain (mkServer P (chunkRequestsInProgress srv)
                                            (loadedChunks srv)))
                      wg (PC_generate (elements P) ∅) log).
      { simpl. unfold T_chunkLoad_step at 2. simpl.
        by rewrite bool_decide_eq_false_2 by done. }
      rewrite Hfirst, Hrun. done. }
    assert (Hid : id0 ∈ new.*1).
    { rewrite Hfst. apply elem_of_reverse, elem_of_elements.
      subst P. apply elem_of_union_l. by apply elem_of_singleton. }
    apply list_elem_of_fmap in Hid as ([a c] & Ha & Hac). simpl in Ha. subst a.
    destruct (Hin id0 c Hac) as [Hres Hwg].
    exists c, new. split_and!.
    + rewrite getChunk_result, Hs2. cbn -[T_chunkLoad_store].
      rewrite store_loaded. by apply lookup_union_Some_l.
    + by rewrite Hs2.
    + apply filter_fst_unique; [|done].
      rewrite Hfst, reverse_Permutation. apply NoDup_elements.
    + done.
Qed.

(** ** Further properties of [getChunk] *)

(** X1: [getChunk] is idempotent: the same call made again returns the
    same result and changes nothing more. *)
Theorem getChunk_idempotent (id : ChunkID) (request : bool) (srv : Server) :
  getChunk id request (getChunk id request srv).2 = getChunk id request srv.
Proof.
  unfold getChunk at 2 3.
  destruct (loadedChunks srv !! id) as [c|] eqn:Hl.
  - simpl. unfold getChunk. by rewrite Hl.
  - destruct request; [|simpl; unfold getChunk; by rewrite Hl].
    destruct (bool_decide (id ∉ chunkRequests srv)
              && bool_decide (id ∉ chunkRequestsInProgress srv)) eqn:Hg; simpl.
    + unfold getChunk. simpl. rewrite Hl.
      rewrite (bool_decide_eq_false_2 (id ∉ {[id]} ∪ chunkRequests srv)); [done|].
      intros Hn. apply Hn. apply elem_of_union_l. by apply elem_of_singleton.
    + unfold getChunk. by rewrite Hl, Hg.
Qed.

(** X2: calls of [getChunk] commute: whatever the two identifiers and
    flags, the state after both calls does not depend on their order, and
    neither does what each call returns. *)
Theorem getChunk_commute (a b : ChunkID) (ra rb : bool) (srv : Server) :
  (getChunk b rb (getChunk a ra srv).2).2 = (getChunk a ra (getChunk b rb srv).2).2
  ∧ (getChunk b rb (getChunk a ra srv).2).1 = (getChunk b rb srv).1
  ∧ (getChunk a ra (getChunk b rb srv).2).1 = (getChunk a ra srv).1.
Proof.
  split_and!; [|by rewrite !getChunk_result, getChunk_loaded..].
  assert (Heq : ∀ s1 s2 : Server,
             chunkRequests s1 = chunkRequests s2 →
             chunkRequestsInProgress s1 = chunkRequestsInProgress s2 →
             loadedChunks s1 = loadedChunks s2 → s1 = s2).
  { intros [] []; simpl; by intros -> -> ->. }
  apply Heq; rewrite ?getChunk_loaded, ?getChunk_inProgress; try done.
  rewrite !getChunk_requests, !getChunk_loaded, !getChunk_inProgress.
  destruct (ra && bool_decide (a ∉ dom (loadedChunks srv))
            && bool_decide (a ∉ chunkRequestsInProgress srv));
    destruct (rb && bool_decide (b ∉ dom (loadedChunks srv))
              && bool_decide (b ∉ chunkRequestsInProgress srv)); try done.
  rewrite !(assoc_L (∪)). by rewrite (comm_L (∪) {[b]} {[a]}).
Qed.

(** X3: lookups alone wake nothing: from a polling state without
    requests, moves of the loader thread and calls of [getChunk] with
    [request = false], in any number and order, leave the whole state as
    it is; in particular the generator is not called. *)
Theorem idle_without_requests (evs : list Event) (s : Sys) :
  pc s = PC_wait →
  chunkRequests (server s) = ∅ →
  forallb asks_nothing evs = true →
  run evs s = s.
Proof.
  intros Hpc Hreq. induction evs as [|e evs IH]; intros Hevs; [done|].
  simpl in Hevs. apply andb_prop in Hevs as [He Hevs].
  rewrite run_cons.
  assert (Hstep : step e s = s); [|rewrite Hstep; by apply IH].
  destruct e as [id request|]; simpl in *.
  - destruct request; [done|].
    assert (Hg : getChunk id false (server s) = (loadedChunks (server s) !! id, server s)).
    { unfold getChunk. by destruct (loadedChunks (server s) !! id). }
    rewrite Hg. simpl. by destruct s.
  - unfold T_chunkLoad_step. rewrite Hpc, Hreq.
    by rewrite bool_decide_eq_true_2 by apply size_empty.
Qed.

Lemma requested_app (evs1 evs2 : list Event) :
  requested (evs1 ++ evs2) = requested evs1 ∪ requested evs2.
Proof.
  induction evs1 as [|[id [|]|] evs1 IH]; simpl.
  - by rewrite (left_id_L ∅ (∪)).
  - by rewrite IH, (assoc_L (∪)).
  - done.
  - done.
Qed.

Lemma all_requested_step (R : gset ChunkID) (e : Event) (s : Sys) :
  all_requested R s → all_requested (R ∪ requested [e]) (step e s).
Proof.
  intros (H1 & H2 & H3 & H4 & H5). unfold all_requested.
  destruct e as [id request|]; simpl.
  - rewrite getChunk_loaded, getChunk_inProgress, getChunk_requests.
    split_and!.
    + clear H4 H5. destruct request; simpl.
      * destruct (_ && _); set_solver.
      * set_solver.
    + clear H4 H5. set_solver.
    + clear H4 H5. set_solver.
    + intros x Hx. apply elem_of_union_l. by apply H4.
    + destruct (pc s) as [| |todo res]; [done..|].
      destruct H5 as [H5 H6]. split; [|set_solver].
      intros x Hx. apply elem_of_union_l. by apply H5.
  - rewrite (right_id_L ∅ (∪)). unfold T_chunkLoad_step.
    destruct (pc s) as [| |[|cid todo] res] eqn:Hpc.
    + case_bool_decide; simpl; rewrite ?Hpc; done.
    + simpl. split_and!; try done.
      intros x Hx. apply elem_of_elements in Hx. exact (H1 x Hx).
    + destruct H5 as [H5 H6]. cbn -[T_chunkLoad_store].
      rewrite store_loaded, store_requests, dom_union_L.
      split_and!; try done. set_solver.
    + destruct H5 as [H5 H6].
      destruct (WG_getChunk (worldGen s) cid) as [c wg']. simpl.
      split_and!; try done.
      * intros x Hx. apply elem_of_cons in Hx as [->|Hx]; [|by apply H4].
        apply H5. left.
      * intros x Hx. apply H5. by right.
      * rewrite dom_insert_L. apply union_subseteq. split; [|done].
        apply singleton_subseteq_l. apply H5. left.
Qed.

Lemma all_requested_run (evs : list Event) :
  ∀ R s, all_requested R s → all_requested (R ∪ requested evs) (run evs s).
Proof.
  induction evs as [|e evs IH]; intros R s Hs.
  - simpl. by rewrite (right_id_L ∅ (∪)).
  - rewrite run_cons.
    change (e :: evs) with ([e] ++ evs). rewrite requested_app, (assoc_L (∪)).
    apply IH. by apply all_requested_step.
Qed.

(** X4: the server generates and loads nothing that was not asked for:
    after any events from the initial state, every identifier the
    generator has been called on, and every identifier requested, in
    progress or loaded, is the argument of some call [getChunk(id, true)]
    among these events. *)
Theorem only_requested_generated (wg : WG) (evs : list Event) (x : ChunkID) :
  (x ∈ (generated (run evs (LocalServer wg))).*1 → x ∈ requested evs)
  ∧ (x ∈ dom (loadedChunks (server (run evs (LocalServer wg)))) →
     x ∈ requested evs)
  ∧ (x ∈ chunkRequests (server (run evs (LocalServer wg))) → x ∈ requested evs)
  ∧ (x ∈ chunkRequestsInProgress (server (run evs (LocalServer wg))) →
     x ∈ requested evs).
Proof.
  assert (H0 : all_requested ∅ (LocalServer wg)).
  { unfold all_requested. simpl. rewrite dom_empty_L. split_and!; try done.
    intros y Hy. by apply elem_of_nil in Hy. }
  apply (all_requested_run evs) in H0. rewrite (left_id_L ∅ (∪)) in H0.
  destruct H0 as (H1 & H2 & H3 & H4 & _).
  split_and!; [apply H4 | apply H3 | apply H1 | apply H2].
Qed.

(** ** A whole turn of the loader thread, any batch *)

Lemma cycle_unfold (srv : Server) (wg : WG) (log : list (ChunkID * Chunk)) :
  chunkRequests srv ≠ ∅ →
  ∃ wg' res' new,
    T_chunkLoad_cycle (mkSys srv wg PC_wait log)
    = mkSys (T_chunkLoad_store res' (T_chunkLoad_drain srv)) wg' PC_wait
            (new ++ log)
    ∧ new.*1 = reverse (elements (chunkRequests srv))
    ∧ (∀ x c, (x, c) ∈ new → res' !! x = Some c)
    ∧ (∀ x, x ∉ chunkRequests srv → res' !! x = None).
Proof.
  intros Hne.
  assert (Hsz : size (chunkRequests srv) ≠ 0).
  { intros Hsz. apply Hne, leibniz_equiv. by apply size_empty_inv. }
  destruct (generate_loop (elements (chunkRequests srv)) (T_chunkLoad_drain srv)
              wg ∅ log (NoDup_elements _))
    as (wg' & res' & new & Hrun & Hfst & Hin & Hout).
  exists wg', res', new. split_and!; [|done| |].
  - unfold T_chunkLoad_cycle. cbn [server].
    assert (Hlen : 3 + size (chunkRequests srv)
                   = 2 + (length (elements (chunkRequests srv)) + 1))
      by (unfold size, set_size; simpl; lia).
    rewrite Hlen, !replicate_add, !run_app.
    assert (Hfirst : run (replicate 2 EvLoader) (mkSys srv wg PC_wait log)
                     = mkSys (T_chunkLoad_drain srv) wg
                             (PC_generate (elements (chunkRequests srv)) ∅) log).
    { simpl. unfold T_chunkLoad_step at 2. simpl.
      by rewrite bool_decide_eq_false_2 by done. }
    rewrite Hfirst, Hrun. done.
  - intros x c Hx. by apply Hin.
  - intros x Hx. rewrite Hout; [apply lookup_empty|].
    by rewrite elem_of_elements.
Qed.

(** X5: one turn of the loader thread serves every pending request.
    From a polling state with requests, the turn ends polling again, with
    no request left and nothing in progress; the generator has been called
    once on each requested identifier and on nothing else, each chunk it
    returned is loaded under its identifier, and the other entries of
    [loadedChunks] are untouched. *)
Theorem cycle_serves_all_requests (s : Sys) :
  pc s = PC_wait →
  chunkRequests (server s) ≠ ∅ →
  pc (T_chunkLoad_cycle s) = PC_wait
  ∧ chunkRequests (server (T_chunkLoad_cycle s)) = ∅
  ∧ chunkRequestsInProgress (server (T_chunkLoad_cycle s)) = ∅
  ∧ ∃ new,
      generated (T_chunkLoad_cycle s) = new ++ generated s
      ∧ new.*1 ≡ₚ elements (chunkRequests (server s))
      ∧ (∀ x c, (x, c) ∈ new →
                loadedChunks (server (T_chunkLoad_cycle s)) !! x = Some c)
      ∧ (∀ x, x ∉ chunkRequests (server s) →
              loadedChunks (server (T_chunkLoad_cycle s)) !! x
              = loadedChunks (server s) !! x).
Proof.
  destruct s as [srv wg p log]. simpl. intros -> Hne.
  destruct (cycle_unfold srv wg log Hne) as (wg' & res' & new & -> & Hfst & Hin & Hout).
  cbn -[T_chunkLoad_store]. rewrite store_requests, store_loaded. simpl.
  split_and!; try done.
  exists new. split_and!; try done.
  - rewrite Hfst. apply reverse_Permutation.
  - intros x c Hx. apply lookup_union_Some_l. by apply Hin.
  - intros x Hx. apply lookup_union_r. by apply Hout.
Qed.

(** ** Where loaded chunks come from *)

Lemma generated_from_generator (s : Sys) :
  reachable s →
  ∀ x c, (x, c) ∈ generated s → ∃ wg, (WG_getChunk wg x).1 = c.
Proof.
  induction 1 as [wg|e s Hs IH]; intros x c Hx.
  - by apply elem_of_nil in Hx.
  - destruct e as [id request|]; simpl in Hx; [by apply IH|].
    unfold T_chunkLoad_step in Hx.
    destruct (pc s) as [| |[|cid todo] res]; simpl in Hx.
    + case_bool_decide; by apply IH.
    + by apply IH.
    + by apply IH.
    + destruct (WG_getChunk (worldGen s) cid) as [c' wg'] eqn:Hgen.
      simpl in Hx. apply elem_of_cons in Hx as [Heq|Hx]; [|by apply IH].
      injection Heq as -> ->. exists (worldGen s). by rewrite Hgen.
Qed.

(** X6: whatever [getChunk] returns was made by the generator for that
    very identifier: a non-null result [c] for [id] is recorded as the
    result of the one generator call on [id]. *)
Theorem getChunk_returns_generated
    (id : ChunkID) (request : bool) (c : Chunk) (s : Sys) :
  reachable s →
  (getChunk id request (server s)).1 = Some c →
  filter (λ e, e.1 = id) (generated s) = [(id, c)]
  ∧ ∃ wg, (WG_getChunk wg id).1 = c.
Proof.
  intros Hs Hc. rewrite getChunk_result in Hc.
  pose proof (Inv_reachable s Hs) as HI.
  assert (Hin : (id, c) ∈ generated s) by (apply (inv_gen_val s HI); by left).
  split.
  - apply filter_fst_unique; [apply HI|done].
  - by apply (generated_from_generator s Hs).
Qed.

Lemma loaded_subseteq_exec (σ : nat → Event) (s : Sys) (n m : nat) :
  Inv s → n ≤ m →
  loadedChunks (server (exec σ n s)) ⊆ loadedChunks (server (exec σ m s)).
Proof.
  intros HI Hle. induction Hle as [|m Hle IH]; [done|].
  etrans; [exact IH|]. simpl. apply loaded_subseteq_step. by apply Inv_exec.
Qed.

(** X7: a requested chunk becomes available for good: after
    [getChunk(x, true)], along every fair interleaving there is a point
    from which every call of [getChunk] on [x], with either flag, returns
    one and the same chunk. *)
Theorem request_eventually_available (x : ChunkID) (s : Sys) :
  reachable s →
  ∀ σ, fair σ →
       ∃ n c, ∀ m request, n ≤ m →
         (getChunk x request (server (exec σ m (step (EvGetChunk x true) s)))).1
         = Some c.
Proof.
  intros Hs σ Hfair.
  assert (HI : Inv (step (EvGetChunk x true) s))
    by by apply Inv_step, Inv_reachable.
  destruct (eventually_loaded σ _ x HI (tracked_after_request x s) Hfair)
    as [n Hn].
  apply elem_of_dom in Hn as [c Hc]. exists n, c. intros m request Hm.
  rewrite getChunk_result. eapply lookup_weaken; [exact Hc|].
  by apply loaded_subseteq_exec.
Qed.

(** ** Destruction *)

Lemma WG_getChunks_app (wg : WG) (cids1 cids2 : list ChunkID) :
  WG_getChunks wg (cids1 ++ cids2)
  = ((WG_getChunks wg cids1).1
       ++ (WG_getChunks (WG_getChunks wg cids1).2 cids2).1,
     (WG_getChunks (WG_getChunks wg cids1).2 cids2).2).
Proof.
  revert wg. induction cids1 as [|cid cids1 IH]; intros wg; simpl.
  - by destruct (WG_getChunks wg cids2).
  - destruct (WG_getChunk wg cid) as [c wg1]. rewrite IH.
    destruct (WG_getChunks wg1 cids1) as [cs wg2]. simpl.
    by destruct (WG_getChunks wg2 cids2).
Qed.

(** The history of generator calls is one run of the generator, from the
    one the server was built with. *)
Lemma generated_calls (s : Sys) :
  reachable s →
  ∃ wg0, WG_getChunks wg0 (reverse (generated s).*1)
         = (reverse (generated s).*2, worldGen s).
Proof.
  induction 1 as [wg|e s Hs [wg0 IH]].
  - by exists wg.
  - exists wg0. destruct e as [id request|]; [done|].
    change (step EvLoader s) with (T_chunkLoad_step s).
    unfold T_chunkLoad_step.
    destruct (pc s) as [| |[|cid todo] res].
    + by case_bool_decide.
    + done.
    + done.
    + destruct (WG_getChunk (worldGen s) cid) as [c wg'] eqn:Hgen.
      cbn [generated worldGen].
      rewrite !fmap_cons, !reverse_cons, WG_getChunks_app, IH.
      cbn [fst snd WG_getChunks]. by rewrite Hgen.
Qed.

Lemma generated_chunks_NoDup (s : Sys) :
  WG_fresh → reachable s → NoDup (generated s).*2.
Proof.
  intros Hfresh Hs. destruct (generated_calls s Hs) as [wg0 Hcalls].
  pose proof (Hfresh wg0 (reverse (generated s).*1)) as Hnd.
  rewrite Hcalls in Hnd. simpl in Hnd. by rewrite reverse_Permutation in Hnd.
Qed.

Lemma NoDup_snd_inj (l : list (ChunkID * Chunk)) (a b : ChunkID) (c : Chunk) :
  NoDup l.*2 → (a, c) ∈ l → (b, c) ∈ l → a = b.
Proof.
  induction l as [|[k d] l IH]; intros Hnd Ha Hb.
  - by apply elem_of_nil in Ha.
  - rewrite fmap_cons in Hnd. apply NoDup_cons in Hnd as [Hd Hnd]. simpl in Hd.
    assert (Hnot : ∀ k', (k', d) ∉ l).
    { intros k' Hk'. apply Hd. apply list_elem_of_fmap. by exists (k', d). }
    apply elem_of_cons in Ha as [Ha|Ha]; apply elem_of_cons in Hb as [Hb|Hb].
    + congruence.
    + injection Ha as -> ->. by destruct (Hnot b).
    + injection Hb as -> ->. by destruct (Hnot a).
    + by apply IH.
Qed.

(** X8: the server owns what it hands out: a chunk that [getChunk] has
    returned is, whatever happens afterwards, among the chunks the
    destructor deletes; and the destructor deletes loaded chunks only,
    one per entry of [loadedChunks]. *)
Theorem destroy_deletes_returned
    (id : ChunkID) (request : bool) (c : Chunk) (s : Sys) (evs : list Event) :
  reachable s →
  (getChunk id request (server s)).1 = Some c →
  c ∈ (LocalServer_destroy (run evs s)).2
  ∧ length (LocalServer_destroy (run evs s)).2
    = size (loadedChunks (server (run evs s)))
  ∧ (∀ c', c' ∈ (LocalServer_destroy (run evs s)).2 →
           ∃ id', loadedChunks (server (run evs s)) !! id' = Some c').
Proof.
  intros Hs Hc. rewrite getChunk_result in Hc.
  unfold LocalServer_destroy. simpl. split_and!.
  - apply list_elem_of_fmap. exists (id, c). split; [done|].
    apply elem_of_map_to_list. eapply lookup_weaken; [exact Hc|].
    by apply loaded_subseteq_run, Inv_reachable.
  - by rewrite length_fmap, length_map_to_list.
  - intros c' Hc'. apply list_elem_of_fmap in Hc' as ([id' d] & -> & Hin).
    exists id'. by apply elem_of_map_to_list.
Qed.

(** X9: with a generator that never returns the same chunk object twice,
    the destructor deletes no chunk twice, in whatever reachable state it
    runs. *)
Theorem destroy_deletes_once (s : Sys) :
  WG_fresh → reachable s → NoDup (LocalServer_destroy s).2.
Proof.
  intros Hfresh Hs. unfold LocalServer_destroy. simpl.
  pose proof (Inv_reachable s Hs) as HI.
  pose proof (generated_chunks_NoDup s Hfresh Hs) as Hnd.
  apply NoDup_fmap_2_strong; [|apply NoDup_map_to_list].
  intros [a c] [b d] Ha Hb Heq. simpl in Heq. subst d.
  apply elem_of_map_to_list in Ha, Hb.
  f_equal. apply (NoDup_snd_inj (generated s) a b c Hnd).
  - apply (inv_gen_val s HI). by left.
  - apply (inv_gen_val s HI). by left.
Qed.

(** X10: the destructor does not look at the results the loader thread
    still holds: with such a generator, a chunk that has been generated
    but not yet stored back is not among the chunks deleted. *)
Theorem destroy_misses_unstored
    (s : Sys) (todo : list ChunkID) (res : gmap ChunkID Chunk)
    (x : ChunkID) (c : Chunk) :
  WG_fresh → reachable s →
  pc s = PC_generate todo res →
  res !! x = Some c →
  c ∉ (LocalServer_destroy s).2.
Proof.
  intros Hfresh Hs Hpc Hx Hc. unfold LocalServer_destroy in Hc. simpl in Hc.
  pose proof (Inv_reachable s Hs) as HI.
  pose proof (generated_chunks_NoDup s Hfresh Hs) as Hnd.
  apply list_elem_of_fmap in Hc as ([k d] & Heq & Hin). simpl in Heq. subst d.
  apply elem_of_map_to_list in Hin.
  assert (k = x) as ->.
  { apply (NoDup_snd_inj (generated s) k x c Hnd).
    - apply (inv_gen_val s HI). by left.
    - apply (inv_gen_val s HI). right. by rewrite Hpc. }
  apply (inv_prog_loaded s HI x).
  - pose proof (inv_pc s HI) as Hok. rewrite Hpc in Hok.
    destruct Hok as (_ & <- & _). apply elem_of_union_r, elem_of_dom. eauto.
  - apply elem_of_dom. eauto.
Qed.

(** ** The batch in progress *)

Lemma generating_nonempty (s : Sys) :
  reachable s →
  ∀ todo res, pc s = PC_generate todo res →
              chunkRequestsInProgress (server s) ≠ ∅.
Proof.
  induction 1 as [wg|e s Hs IH]; intros todo res Hpc; [done|].
  pose proof (Inv_reachable s Hs) as HI.
  destruct e as [id request|]; simpl in *.
  - rewrite getChunk_inProgress. by eapply IH.
  - unfold T_chunkLoad_step in *.
    pose proof (inv_pc s HI) as Hok.
    destruct (pc s) as [| |[|cid todo'] res'] eqn:Hpc'; simpl in *.
    + case_bool_decide; simpl in Hpc; congruence.
    + by destruct Hok.
    + done.
    + destruct (WG_getChunk (worldGen s) cid). simpl in *. by eapply IH.
Qed.

(** X11: the loader thread never works on an empty batch: in a reachable
    state the set in progress is non-empty exactly while the thread is in
    its generation loop or about to store back, and when the thread is
    about to grab the requests there is at least one. *)
Theorem batch_never_empty (s : Sys) :
  reachable s →
  (chunkRequestsInProgress (server s) ≠ ∅
   ↔ ∃ todo res, pc s = PC_generate todo res)
  ∧ (pc s = PC_lock → chunkRequests (server s) ≠ ∅).
Proof.
  intros Hs. pose proof (Inv_reachable s Hs) as HI.
  pose proof (inv_pc s HI) as Hok. split; [split|].
  - intros Hne. destruct (pc s) as [| |todo res]; simpl in Hok.
    + done.
    + by destruct Hok.
    + by exists todo, res.
  - intros (todo & res & Hpc). by apply (generating_nonempty s Hs todo res).
  - intros Hpc. rewrite Hpc in Hok. by destruct Hok.
Qed.

(** X12: the generator is called once per chunk: in a reachable state the
    number of generator calls made so far is the number of loaded chunks
    plus the number of results the loader thread holds; while the thread
    polls, it is the number of loaded chunks. *)
Theorem generator_calls_counted (s : Sys) :
  reachable s →
  length (generated s)
  = size (loadedChunks (server s)) + size (pc_res (pc s))
  ∧ (pc s = PC_wait → length (generated s) = size (loadedChunks (server s))).
Proof.
  intros Hs. pose proof (Inv_reachable s Hs) as HI.
  assert (Hlen : length (generated s)
                 = size (loadedChunks (server s)) + size (pc_res (pc s))).
  { rewrite <- (length_fmap fst (generated s)).
    rewrite <- (size_list_to_set (C := gset ChunkID)) by apply HI.
    rewrite <- !size_dom, <- size_union.
    - f_equal. apply set_eq. intros x.
      rewrite elem_of_list_to_set, elem_of_union. apply (inv_gen_dom s HI).
    - intros x Hl Hr. apply (inv_prog_loaded s HI x); [|done].
      pose proof (inv_pc s HI) as Hok.
      destruct (pc s) as [| |todo res]; simpl in *;
        try (rewrite dom_empty_L in Hr; by apply elem_of_empty in Hr).
      destruct Hok as (_ & <- & _). by apply elem_of_union_r. }
  split; [done|].
  intros Hpc. rewrite Hlen, Hpc. simpl. rewrite map_size_empty. lia.
Qed.

End server.

Arguments mkServer {Chunk}.
Arguments chunkRequests {Chunk}.
Arguments chunkRequestsInProgress {Chunk}.
Arguments loadedChunks {Chunk}.
Arguments getChunk {Chunk}.
Arguments T_chunkLoad_drain {Chunk}.
Arguments T_chunkLoad_store1 {Chunk}.
Arguments T_chunkLoad_store {Chunk}.
Arguments PC_wait {Chunk}.
Arguments PC_lock {Chunk}.
Arguments PC_generate {Chunk}.
Arguments mkSys {Chunk WG}.
Arguments server {Chunk WG}.
Arguments worldGen {Chunk WG}.
Arguments pc {Chunk WG}.
Arguments generated {Chunk WG}.
Arguments LocalServer {Chunk WG}.
Arguments T_chunkLoad_step {Chunk WG}.
Arguments step {Chunk WG}.
Arguments run {Chunk WG}.
Arguments reachable {Chunk WG}.
Arguments gen_count {Chunk WG}.
Arguments is_drain {Chunk WG}.
Arguments is_store {Chunk WG}.
Arguments count_steps {Chunk WG}.
Arguments exec {Chunk WG}.
Arguments T_chunkLoad_cycle {Chunk WG}.
Arguments LocalServer_destroy {Chunk WG}.
Arguments WG_getChunks {Chunk WG}.
Arguments WG_fresh {Chunk WG}.

(** ** Bitmaps: [getIndex], [get] and [set] of [Texture] and [FontTexture] *)

Section bitmap.

#[local] Open Scope Z_scope.

Context `{Render.Bitmap T}.

Implicit Types (t : T) (row col idx : Z) (pix : Render.pixel).

Lemma int_Some (z : Z) :
  Render.INT_MIN ≤ z ≤ Render.INT_MAX → Render.int z = Some z.
Proof. intros Hz. unfold Render.int. by rewrite bool_decide_eq_true_2. Qed.

Lemma int_inv (z y : Z) :
  Render.int z = Some y → y = z ∧ Render.INT_MIN ≤ z ≤ Render.INT_MAX.
Proof. unfold Render.int. case_bool_decide; naive_solver. Qed.

Lemma getIndex_inv t row col idx :
  Render.getIndex t row col = Some idx →
  idx = Render.bm_width t * row + col
  ∧ Render.INT_MIN ≤ Render.bm_width t * row ≤ Render.INT_MAX
  ∧ Render.INT_MIN ≤ idx ≤ Render.INT_MAX.
Proof.
  unfold Render.getIndex. intros Hi.
  apply bind_Some in Hi as (m & Hm & Hi).
  apply int_inv in Hm as [-> Hm]. apply int_inv in Hi as [-> Hi]. done.
Qed.

Lemma getIndex_Some t row col :
  Render.INT_MIN ≤ Render.bm_width t * row ≤ Render.INT_MAX →
  Render.INT_MIN ≤ Render.bm_width t * row + col ≤ Render.INT_MAX →
  Render.getIndex t row col = Some (Render.bm_width t * row + col).
Proof.
  intros H1 H2. unfold Render.getIndex. rewrite (int_Some _ H1). simpl.
  by apply int_Some.
Qed.

Lemma INT_MIN_neg : Render.INT_MIN < 0.
Proof. done. Qed.

Lemma getIndex_bounds t row col :
  Render.allocated t →
  0 ≤ row < Render.bm_height t →
  0 ≤ col < Render.bm_width t →
  Render.getIndex t row col = Some (Render.bm_width t * row + col)
  ∧ 0 ≤ Render.bm_width t * row + col < Z.of_nat (length (Render.bm_pixels t)).
Proof.
  intros [Hlen Hmax] Hrow Hcol. pose proof INT_MIN_neg.
  assert (0 ≤ Render.bm_width t * row) by nia.
  assert (Render.bm_width t * row + col < Render.bm_width t * Render.bm_height t)
    by nia.
  split; [apply getIndex_Some; lia | lia].
Qed.

Lemma getIndex_inj t row1 col1 row2 col2 idx :
  0 ≤ col1 < Render.bm_width t →
  0 ≤ col2 < Render.bm_width t →
  Render.getIndex t row1 col1 = Some idx →
  Render.getIndex t row2 col2 = Some idx →
  row1 = row2 ∧ col1 = col2.
Proof.
  intros Hc1 Hc2 H1 H2.
  apply getIndex_inv in H1 as (-> & _ & _). apply getIndex_inv in H2 as (H2 & _ & _).
  assert (row1 = row2) by nia. subst. split; [done|lia].
Qed.

(** X13: for coordinates inside an allocated bitmap, [getIndex] overflows
    nowhere and lands inside the pixel array. *)
Theorem getIndex_in_bounds t row col :
  Render.allocated t →
  0 ≤ row < Render.bm_height t →
  0 ≤ col < Render.bm_width t →
  Render.getIndex t row col = Some (Render.bm_width t * row + col)
  ∧ 0 ≤ Render.bm_width t * row + col < Z.of_nat (length (Render.bm_pixels t)).
Proof. apply getIndex_bounds. Qed.

(** X14: the layout is row major without overlap: two coordinates with
    their columns inside the width that [getIndex] sends to the same index
    are the same coordinates. *)
Theorem getIndex_injective t row1 col1 row2 col2 idx :
  0 ≤ col1 < Render.bm_width t →
  0 ≤ col2 < Render.bm_width t →
  Render.getIndex t row1 col1 = Some idx →
  Render.getIndex t row2 col2 = Some idx →
  row1 = row2 ∧ col1 = col2.
Proof. apply getIndex_inj. Qed.

(** X15: every index of the pixel array is the index of exactly the
    coordinates [(idx / width, idx mod width)], which lie inside the
    bitmap. *)
Theorem getIndex_of_index t idx :
  Render.allocated t →
  0 < Render.bm_width t →
  0 ≤ idx < Z.of_nat (length (Render.bm_pixels t)) →
  Render.getIndex t (idx / Render.bm_width t) (idx mod Render.bm_width t)
  = Some idx
  ∧ 0 ≤ idx / Render.bm_width t < Render.bm_height t
  ∧ 0 ≤ idx mod Render.bm_width t < Render.bm_width t.
Proof.
  intros [Hlen Hmax] Hw Hidx. pose proof INT_MIN_neg.
  pose proof (Z.div_mod idx (Render.bm_width t)) as Hdm.
  pose proof (Z.mod_pos_bound idx (Render.bm_width t) Hw) as Hmod.
  assert (0 ≤ idx / Render.bm_width t) by (apply Z.div_pos; lia).
  assert (idx / Render.bm_width t < Render.bm_height t).
  { apply Z.div_lt_upper_bound; lia. }
  split_and!; try lia.
  rewrite getIndex_Some; [f_equal; lia | nia | lia].
Qed.

(** X16: [set] then [get] at the same place gives the pixel written; the
    bitmap keeps its width, its height and the size of its array. *)
Theorem set_get t row col pix :
  Render.allocated t →
  0 ≤ row < Render.bm_height t →
  0 ≤ col < Render.bm_width t →
  ∃ t', Render.set t row col pix = Some t'
        ∧ Render.get t' row col = Some pix
        ∧ Render.bm_width t' = Render.bm_width t
        ∧ Render.bm_height t' = Render.bm_height t
        ∧ Render.allocated t'.
Proof.
  intros Halloc Hrow Hcol.
  destruct (getIndex_bounds t row col Halloc Hrow Hcol) as [Hidx Hin].
  eexists. unfold Render.set. rewrite Hidx. simpl.
  rewrite bool_decide_eq_true_2 by done. split; [done|].
  split_and!.
  - unfold Render.get, Render.getIndex in *.
    rewrite Render.bm_width_with, Hidx. simpl.
    rewrite bool_decide_eq_true_2 by lia.
    rewrite Render.bm_pixels_with. apply list_lookup_insert_eq. lia.
  - apply Render.bm_width_with.
  - apply Render.bm_height_with.
  - destruct Halloc as [Hlen Hmax]. unfold Render.allocated.
    by rewrite Render.bm_pixels_with, Render.bm_width_with,
      Render.bm_height_with, length_insert.
Qed.

(** X17: [set] changes one pixel only: a [get] at other coordinates
    (columns inside the width) returns what it returned before. *)
Theorem set_get_other t t' row col pix row' col' :
  0 ≤ col < Render.bm_width t →
  0 ≤ col' < Render.bm_width t →
  (row', col') ≠ (row, col) →
  Render.set t row col pix = Some t' →
  Render.get t' row' col' = Render.get t row' col'.
Proof.
  intros Hcol Hcol' Hne Hset. unfold Render.set in Hset.
  apply bind_Some in Hset as (idx & Hidx & Hset).
  case_bool_decide as Hin; [|done]. injection Hset as <-.
  unfold Render.get.
  assert (Hgi : Render.getIndex (Render.bm_with_pixels
                  (<[Z.to_nat idx := pix]> (Render.bm_pixels t)) t) row' col'
                = Render.getIndex t row' col').
  { unfold Render.getIndex. by rewrite Render.bm_width_with. }
  rewrite Hgi. destruct (Render.getIndex t row' col') as [idx'|] eqn:Hidx';
    [simpl|done].
  case_bool_decide as Hpos; [|done].
  rewrite Render.bm_pixels_with. apply list_lookup_insert_ne.
  intros Heq. apply Hne.
  assert (idx' = idx) as -> by lia.
  destruct (getIndex_inj t row' col' row col idx Hcol' Hcol Hidx' Hidx)
    as [-> ->]. done.
Qed.

(** X18: [getIndex] does not check the column: a column one width too far
    is the same column of the next row, so that [get] reads, and [set]
    writes, that other pixel. *)
Theorem column_past_width_is_next_row t row col pix :
  Render.allocated t →
  0 ≤ row → row + 1 < Render.bm_height t →
  0 ≤ col < Render.bm_width t →
  Render.getIndex t row (col + Render.bm_width t)
  = Render.getIndex t (row + 1) col
  ∧ Render.get t row (col + Render.bm_width t) = Render.get t (row + 1) col
  ∧ Render.set t row (col + Render.bm_width t) pix
    = Render.set t (row + 1) col pix
  ∧ is_Some (Render.get t row (col + Render.bm_width t)).
Proof.
  intros Halloc Hrow Hrow' Hcol.
  destruct (getIndex_bounds t (row + 1) col Halloc) as [Hidx Hin];
    [lia|lia|].
  destruct Halloc as [Hlen Hmax]. pose proof INT_MIN_neg.
  assert (Hgi : Render.getIndex t row (col + Render.bm_width t)
                = Render.getIndex t (row + 1) col).
  { rewrite Hidx. rewrite getIndex_Some; [f_equal; lia | nia | nia]. }
  unfold Render.get, Render.set. rewrite Hgi. split_and!; try done.
  rewrite Hidx. simpl. rewrite bool_decide_eq_true_2 by lia.
  apply lookup_lt_is_Some. lia.
Qed.

(** X19: the last write wins: a second [set] at the same coordinates
    gives the bitmap that this [set] alone would give. *)
Theorem set_set t t1 row col pix1 pix2 :
  Render.set t row col pix1 = Some t1 →
  Render.set t1 row col pix2 = Render.set t row col pix2.
Proof.
  intros Hset. unfold Render.set in *.
  apply bind_Some in Hset as (idx & Hidx & Hset).
  case_bool_decide as Hin; [|done]. injection Hset as <-.
  unfold Render.getIndex in *. rewrite Render.bm_width_with, Hidx. simpl.
  rewrite Render.bm_pixels_with, length_insert.
  rewrite !bool_decide_eq_true_2 by done.
  by rewrite list_insert_insert_eq, Render.bm_with_with.
Qed.

(** X20: writes at different coordinates (columns inside the width)
    commute. *)
Theorem set_commute t ta tb row1 col1 pix1 row2 col2 pix2 :
  0 ≤ col1 < Render.bm_width t →
  0 ≤ col2 < Render.bm_width t →
  (row1, col1) ≠ (row2, col2) →
  Render.set t row1 col1 pix1 = Some ta →
  Render.set t row2 col2 pix2 = Some tb →
  Render.set ta row2 col2 pix2 = Render.set tb row1 col1 pix1
  ∧ is_Some (Render.set ta row2 col2 pix2).
Proof.
  intros Hc1 Hc2 Hne Ha Hb. unfold Render.set in *.
  apply bind_Some in Ha as (i1 & Hi1 & Ha).
  apply bind_Some in Hb as (i2 & Hi2 & Hb).
  case_bool_decide as Hin1; [|done]. case_bool_decide as Hin2; [|done].
  injection Ha as <-. injection Hb as <-.
  assert (Hi : Z.to_nat i1 ≠ Z.to_nat i2).
  { intros Heq. apply Hne. assert (i1 = i2) as -> by lia.
    destruct (getIndex_inj t row1 col1 row2 col2 i2 Hc1 Hc2 Hi1 Hi2)
      as [-> ->]. done. }
  unfold Render.getIndex in *. rewrite !Render.bm_width_with, Hi1, Hi2. simpl.
  rewrite !Render.bm_pixels_with, !length_insert.
  rewrite !bool_decide_eq_true_2 by done.
  rewrite !Render.bm_with_with. split; [|done].
  do 2 f_equal. apply list_insert_insert_ne. congruence.
Qed.

End bitmap.

(** ** Examples *)

(** The examples run the server with the generator [fresh_gen], started
    at object 0. *)

(** The loader thread alone is a fair interleaving; so is any
    interleaving that lets it move every other step. *)
Example fair_loader_only : fair (λ _, EvLoader).
Proof. intros n. exists n. split; [lia|done]. Qed.

Example fair_alternating (id : ChunkID) :
  fair (λ n, if Nat.even n then EvGetChunk id true else EvLoader).
Proof.
  intros n. destruct (Nat.even n) eqn:Hn.
  - exists (S n). split; [lia|]. by rewrite Nat.even_succ, <- Nat.negb_even, Hn.
  - exists n. split; [lia|]. by rewrite Hn.
Qed.

(** Five requests for [id0], before, during and after its generation:
    one generator call, one loaded chunk, nothing left to do. *)
Example repeated_requests_one_call :
  let s := run fresh_gen [EvGetChunk id0 true; EvGetChunk id0 true; EvLoader;
                          EvLoader; EvGetChunk id0 true; EvLoader;
                          EvGetChunk id0 true; EvLoader; EvGetChunk id0 true]
               (LocalServer 0) in
  generated s = [(id0, 0)]
  ∧ loadedChunks (server s) = {[id0 := 0]}
  ∧ chunkRequests (server s) = ∅
  ∧ chunkRequestsInProgress (server s) = ∅
  ∧ pc s = PC_wait.
Proof. cbv zeta. split_and!; vm_compute; reflexivity. Qed.

(** A request that arrives while [id0] is generated is served by the next
    turn of the loader thread. *)
Example overlapping_requests_two_turns :
  let s := run fresh_gen [EvGetChunk id0 true; EvLoader; EvLoader;
                          EvGetChunk id1 true; EvLoader; EvLoader]
               (LocalServer 0) in
  loadedChunks (server s) = {[id0 := 0]}
  ∧ chunkRequests (server s) = {[id1]}
  ∧ loadedChunks (server (T_chunkLoad_cycle fresh_gen s))
    = {[id0 := 0; id1 := 1]}
  ∧ generated (T_chunkLoad_cycle fresh_gen s) = [(id1, 1); (id0, 0)].
Proof. cbv zeta. split_and!; vm_compute; reflexivity. Qed.

Lemma request_dedup_witness :
  let s := run fresh_gen [EvGetChunk id0 true; EvGetChunk id0 true; EvLoader;
                          EvLoader; EvGetChunk id0 true]
               (LocalServer 0) in
  reachable fresh_gen s
  ∧ chunkRequestsInProgress (server s) = {[id0]}
  ∧ ¬ (id0 ∈ chunkRequests (server s)
       ∧ id0 ∈ chunkRequestsInProgress (server s))
  ∧ gen_count id0 s ≤ 1
  ∧ (∀ σ, fair σ →
          ∃ n, ∀ m, n ≤ m →
                    gen_count id0
                      (exec fresh_gen σ m (step fresh_gen (EvGetChunk id0 true) s))
                    = 1).
Proof.
  intros s.
  assert (Hs : reachable fresh_gen s)
    by (apply reachable_run; constructor).
  split; [exact Hs|].
  split; [vm_compute; reflexivity|].
  exact (request_dedup nat nat fresh_gen id0 s Hs).
Defined.

Lemma collections_disjoint_witness :
  let s := run fresh_gen [EvGetChunk id0 true; EvLoader; EvLoader;
                          EvGetChunk id1 true]
               (LocalServer 0) in
  reachable fresh_gen s
  ∧ chunkRequests (server s) = {[id1]}
  ∧ chunkRequestsInProgress (server s) = {[id0]}
  ∧ chunkRequests (server s) ## chunkRequestsInProgress (server s)
  ∧ chunkRequests (server s) ## dom (loadedChunks (server s))
  ∧ chunkRequestsInProgress (server s) ## dom (loadedChunks (server s)).
Proof.
  intros s.
  assert (Hs : reachable fresh_gen s)
    by (apply reachable_run; constructor).
  split; [exact Hs|].
  split; [vm_compute; reflexivity|].
  split; [vm_compute; reflexivity|].
  exact (collections_disjoint nat nat fresh_gen s Hs).
Defined.

Lemma drain_snapshot_witness :
  let s := run fresh_gen [EvGetChunk id0 true; EvGetChunk id1 true; EvLoader]
               (LocalServer 0) in
  pc s = PC_lock
  ∧ chunkRequestsInProgress (server (step fresh_gen EvLoader s)) = {[id0; id1]}
  ∧ chunkRequests (server (step fresh_gen EvLoader s)) = ∅.
Proof.
  intros s.
  assert (Hpc : pc s = PC_lock) by (vm_compute; reflexivity).
  split; [exact Hpc|].
  destruct (drain_snapshot nat nat fresh_gen s Hpc) as (_ & H1 & H2 & _).
  split; [|exact H2].
  rewrite H1. vm_compute. reflexivity.
Defined.

Lemma loaded_stable_witness :
  let s := run fresh_gen [EvGetChunk id0 true; EvLoader; EvLoader; EvLoader;
                          EvLoader]
               (LocalServer 0) in
  reachable fresh_gen s
  ∧ loadedChunks (server s) !! id0 = Some 0
  ∧ ∀ evs,
      loadedChunks (server (run fresh_gen evs s)) !! id0 = Some 0
      ∧ (id0 ∉ chunkRequests (server (run fresh_gen evs s)))
      ∧ (id0 ∉ chunkRequestsInProgress (server (run fresh_gen evs s)))
      ∧ (∀ request,
           (getChunk id0 request (server (run fresh_gen evs s))).1 = Some 0).
Proof.
  intros s.
  assert (Hs : reachable fresh_gen s)
    by (apply reachable_run; constructor).
  assert (Hl : loadedChunks (server s) !! id0 = Some 0)
    by (vm_compute; reflexivity).
  split; [exact Hs|]. split; [exact Hl|].
  exact (loaded_stable nat nat fresh_gen id0 0 s Hs Hl).
Defined.

Lemma loaded_monotone_witness :
  let s := run fresh_gen [EvGetChunk id0 true; EvLoader; EvLoader; EvLoader;
                          EvLoader; EvGetChunk id1 true; EvLoader; EvLoader;
                          EvLoader]
               (LocalServer 0) in
  reachable fresh_gen s
  ∧ loadedChunks (server s) !! id0 = Some 0
  ∧ pc s = PC_generate [] {[id1 := 1]}
  ∧ loadedChunks (server (step fresh_gen EvLoader s)) !! id0 = Some 0.
Proof.
  intros s.
  assert (Hs : reachable fresh_gen s)
    by (apply reachable_run; constructor).
  assert (Hl : loadedChunks (server s) !! id0 = Some 0)
    by (vm_compute; reflexivity).
  split; [exact Hs|]. split; [exact Hl|].
  split; [vm_compute; reflexivity|].
  exact (loaded_monotone nat nat fresh_gen EvLoader s Hs id0 0 Hl).
Defined.

Lemma scenario_request_then_cycle_witness :
  let srv : Server nat := mkServer ∅ ∅ ∅ in
  let s1 := step fresh_gen (EvGetChunk id0 true) (mkSys srv 0 PC_wait []) in
  let s2 := T_chunkLoad_cycle fresh_gen s1 in
  (id0 ∉ chunkRequests srv)
  ∧ (id0 ∉ chunkRequestsInProgress srv)
  ∧ loadedChunks srv !! id0 = None
  ∧ (getChunk id0 false (server s1)).1 = None
  ∧ ∃ c new,
      (getChunk id0 false (server s2)).1 = Some c
      ∧ generated s2 = new ++ []
      ∧ filter (λ e, e.1 = id0) new = [(id0, c)]
      ∧ ∃ wg_k, (fresh_gen wg_k id0).1 = c.
Proof.
  intros srv s1 s2.
  assert (H1 : id0 ∉ chunkRequests srv) by apply not_elem_of_empty.
  assert (H2 : id0 ∉ chunkRequestsInProgress srv) by apply not_elem_of_empty.
  assert (H3 : loadedChunks srv !! id0 = None) by reflexivity.
  split; [exact H1|]. split; [exact H2|]. split; [exact H3|].
  exact (scenario_request_then_cycle nat nat fresh_gen srv 0 [] H1 H2 H3).
Defined.

Lemma overlapping_request_served_witness :
  let s := run fresh_gen [EvGetChunk id0 true; EvLoader; EvLoader]
               (LocalServer 0) in
  let s1 := step fresh_gen (EvGetChunk id1 true) s in
  reachable fresh_gen s
  ∧ id0 ∈ chunkRequestsInProgress (server s)
  ∧ (id1 ∉ chunkRequestsInProgress (server s))
  ∧ loadedChunks (server s) !! id1 = None
  ∧ id1 ∈ chunkRequests (server s1)
  ∧ (∀ evs, 2 ≤ count_steps fresh_gen (is_store (WG := nat)) evs s1 →
            ∃ c, loadedChunks (server (run fresh_gen evs s1)) !! id1 = Some c
                 ∧ (id1, c) ∈ generated (run fresh_gen evs s1)
                 ∧ gen_count id1 (run fresh_gen evs s1) = 1)
  ∧ (∀ σ, fair σ →
          ∃ n, ∀ m, n ≤ m →
                    is_Some (loadedChunks (server (exec fresh_gen σ m s1)) !! id1)).
Proof.
  intros s s1.
  assert (Hs : reachable fresh_gen s)
    by (apply reachable_run; constructor).
  assert (HA : id0 ∈ chunkRequestsInProgress (server s))
    by (apply (bool_decide_unpack _); vm_compute; exact I).
  assert (HB : id1 ∉ chunkRequestsInProgress (server s))
    by (apply (bool_decide_unpack _); vm_compute; exact I).
  assert (HBl : loadedChunks (server s) !! id1 = None)
    by (vm_compute; reflexivity).
  split; [exact Hs|]. split; [exact HA|]. split; [exact HB|].
  split; [exact HBl|].
  destruct (overlapping_request_served nat nat fresh_gen id0 id1 s Hs HA HB HBl)
    as (K1 & _ & _ & K4 & K5).
  split; [exact K1|]. split; [exact K4|exact K5].
Defined.

(** C5, as stated, fails.  Both [id0] and [id1] are requested, grabbed
    and generated; the loader thread is about to store them back.  A turn
    of the storing loop, for either pair, loads the chunk but leaves its
    identifier in progress: nothing is removed from the set in progress
    per chunk.  The critical section as a whole then removes [id0] and
    [id1] together. *)
Lemma store_not_per_chunk :
  let s := run fresh_gen [EvGetChunk id0 true; EvGetChunk id1 true;
                          EvLoader; EvLoader; EvLoader; EvLoader]
               (LocalServer 0) in
  pc s = PC_generate [] {[id0 := 0; id1 := 1]}
  ∧ chunkRequestsInProgress (server s) = {[id0; id1]}
  ∧ loadedChunks (T_chunkLoad_store1 (server s) (id0, 0)) !! id0 = Some 0
  ∧ id0 ∈ chunkRequestsInProgress (T_chunkLoad_store1 (server s) (id0, 0))
  ∧ chunkRequestsInProgress (T_chunkLoad_store1 (server s) (id0, 0))
    ≠ chunkRequestsInProgress (server s) ∖ {[id0]}
  ∧ loadedChunks (T_chunkLoad_store1 (server s) (id1, 1)) !! id1 = Some 1
  ∧ id1 ∈ chunkRequestsInProgress (T_chunkLoad_store1 (server s) (id1, 1))
  ∧ chunkRequestsInProgress (T_chunkLoad_store1 (server s) (id1, 1))
    ≠ chunkRequestsInProgress (server s) ∖ {[id1]}
  ∧ loadedChunks (server (step fresh_gen EvLoader s)) = {[id0 := 0; id1 := 1]}
  ∧ chunkRequestsInProgress (server (step fresh_gen EvLoader s)) = ∅.
Proof.
  cbv zeta. split_and!.
  - vm_compute. reflexivity.
  - vm_compute. reflexivity.
  - vm_compute. reflexivity.
  - apply (bool_decide_unpack _). vm_compute. exact I.
  - apply (bool_decide_unpack _). vm_compute. exact I.
  - vm_compute. reflexivity.
  - apply (bool_decide_unpack _). vm_compute. exact I.
  - apply (bool_decide_unpack _). vm_compute. exact I.
  - vm_compute. reflexivity.
  - vm_compute. reflexivity.
Qed.

(** *** The further properties, on concrete states *)

Lemma idle_without_requests_witness :
  pc (LocalServer (Chunk := nat) 0) = PC_wait
  ∧ chunkRequests (server (LocalServer (Chunk := nat) 0)) = ∅
  ∧ forallb asks_nothing [EvLoader; EvGetChunk id0 false; EvLoader;
                          EvGetChunk id1 false] = true
  ∧ run fresh_gen [EvLoader; EvGetChunk id0 false; EvLoader;
                   EvGetChunk id1 false] (LocalServer 0)
    = LocalServer 0.
Proof.
  split; [reflexivity|]. split; [reflexivity|]. split; [reflexivity|].
  apply (idle_without_requests nat nat fresh_gen); reflexivity.
Defined.

Lemma cycle_serves_all_requests_witness :
  let s := run fresh_gen [EvGetChunk id0 true; EvGetChunk id1 true]
               (LocalServer 0) in
  pc s = PC_wait
  ∧ chunkRequests (server s) ≠ ∅
  ∧ pc (T_chunkLoad_cycle fresh_gen s) = PC_wait
  ∧ chunkRequests (server (T_chunkLoad_cycle fresh_gen s)) = ∅
  ∧ chunkRequestsInProgress (server (T_chunkLoad_cycle fresh_gen s)) = ∅.
Proof.
  intros s.
  assert (Hpc : pc s = PC_wait) by reflexivity.
  assert (Hne : chunkRequests (server s) ≠ ∅)
    by (apply (bool_decide_unpack _); vm_compute; exact I).
  split; [exact Hpc|]. split; [exact Hne|].
  destruct (cycle_serves_all_requests nat nat fresh_gen s Hpc Hne)
    as (H1 & H2 & H3 & _).
  split; [exact H1|]. split; [exact H2|exact H3].
Defined.

Lemma getChunk_returns_generated_witness :
  let s := run fresh_gen [EvGetChunk id0 true; EvLoader; EvLoader; EvLoader;
                          EvLoader]
               (LocalServer 0) in
  reachable fresh_gen s
  ∧ (getChunk id0 false (server s)).1 = Some 0
  ∧ filter (λ e, e.1 = id0) (generated s) = [(id0, 0)]
  ∧ ∃ wg, (fresh_gen wg id0).1 = 0.
Proof.
  intros s.
  assert (Hs : reachable fresh_gen s) by (apply reachable_run; constructor).
  assert (Hc : (getChunk id0 false (server s)).1 = Some 0)
    by (vm_compute; reflexivity).
  split; [exact Hs|]. split; [exact Hc|].
  exact (getChunk_returns_generated nat nat fresh_gen id0 false 0 s Hs Hc).
Defined.

Lemma request_eventually_available_witness :
  reachable fresh_gen (LocalServer 0)
  ∧ ∀ σ, fair σ →
         ∃ n c, ∀ m request, n ≤ m →
           (getChunk id0 request
              (server (exec fresh_gen σ m
                         (step fresh_gen (EvGetChunk id0 true) (LocalServer 0))))).1
           = Some c.
Proof.
  split; [constructor|].
  apply (request_eventually_available nat nat fresh_gen id0 (LocalServer 0)).
  constructor.
Defined.

Lemma destroy_deletes_returned_witness :
  let s := run fresh_gen [EvGetChunk id0 true; EvLoader; EvLoader; EvLoader;
                          EvLoader]
               (LocalServer 0) in
  reachable fresh_gen s
  ∧ (getChunk id0 true (server s)).1 = Some 0
  ∧ 0 ∈ (LocalServer_destroy (run fresh_gen [EvGetChunk id1 true; EvLoader] s)).2.
Proof.
  intros s.
  assert (Hs : reachable fresh_gen s) by (apply reachable_run; constructor).
  assert (Hc : (getChunk id0 true (server s)).1 = Some 0)
    by (vm_compute; reflexivity).
  split; [exact Hs|]. split; [exact Hc|].
  exact (proj1 (destroy_deletes_returned nat nat fresh_gen id0 true 0 s
                  [EvGetChunk id1 true; EvLoader] Hs Hc)).
Defined.

Lemma fresh_gen_calls (next : nat) (cids : list ChunkID) :
  (WG_getChunks fresh_gen next cids).1 = seq next (length cids).
Proof.
  revert next. induction cids as [|cid cids IH]; intros next; [done|].
  simpl. specialize (IH (S next)).
  destruct (WG_getChunks fresh_gen (S next) cids). simpl in *. by rewrite IH.
Qed.

Lemma fresh_gen_fresh : WG_fresh fresh_gen.
Proof. intros next cids. rewrite fresh_gen_calls. apply NoDup_seq. Qed.

Lemma destroy_deletes_once_witness :
  let s := run fresh_gen [EvGetChunk id0 true; EvGetChunk id1 true; EvLoader;
                          EvLoader; EvLoader; EvLoader; EvLoader]
               (LocalServer 0) in
  WG_fresh fresh_gen
  ∧ reachable fresh_gen s
  ∧ length (LocalServer_destroy s).2 = 2
  ∧ NoDup (LocalServer_destroy s).2.
Proof.
  intros s.
  assert (Hs : reachable fresh_gen s) by (apply reachable_run; constructor).
  split; [exact fresh_gen_fresh|]. split; [exact Hs|].
  split; [vm_compute; reflexivity|].
  exact (destroy_deletes_once nat nat fresh_gen s fresh_gen_fresh Hs).
Defined.

Lemma destroy_misses_unstored_witness :
  let s := run fresh_gen [EvGetChunk id0 true; EvLoader; EvLoader; EvLoader;
                          EvLoader; EvGetChunk id1 true; EvLoader; EvLoader;
                          EvLoader]
               (LocalServer 0) in
  WG_fresh fresh_gen
  ∧ reachable fresh_gen s
  ∧ pc s = PC_generate [] {[id1 := 1]}
  ∧ ({[id1 := 1]} : gmap ChunkID nat) !! id1 = Some 1
  ∧ (LocalServer_destroy s).2 = [0]
  ∧ 1 ∉ (LocalServer_destroy s).2.
Proof.
  intros s.
  assert (Hs : reachable fresh_gen s) by (apply reachable_run; constructor).
  assert (Hpc : pc s = PC_generate [] {[id1 := 1]}) by (vm_compute; reflexivity).
  assert (Hres : ({[id1 := 1]} : gmap ChunkID nat) !! id1 = Some 1)
    by (vm_compute; reflexivity).
  split; [exact fresh_gen_fresh|]. split; [exact Hs|]. split; [exact Hpc|].
  split; [exact Hres|]. split; [vm_compute; reflexivity|].
  exact (destroy_misses_unstored nat nat fresh_gen s [] {[id1 := 1]} id1 1
           fresh_gen_fresh Hs Hpc Hres).
Defined.

Lemma batch_never_empty_witness :
  let s := run fresh_gen [EvGetChunk id0 true; EvLoader; EvLoader]
               (LocalServer 0) in
  reachable fresh_gen s
  ∧ pc s = PC_generate [id0] ∅
  ∧ (chunkRequestsInProgress (server s) ≠ ∅
     ↔ ∃ todo res, pc s = PC_generate todo res).
Proof.
  intros s.
  assert (Hs : reachable fresh_gen s) by (apply reachable_run; constructor).
  split; [exact Hs|]. split; [vm_compute; reflexivity|].
  exact (proj1 (batch_never_empty nat nat fresh_gen s Hs)).
Defined.

Lemma generator_calls_counted_witness :
  let s := run fresh_gen [EvGetChunk id0 true; EvLoader; EvLoader; EvLoader;
                          EvLoader; EvGetChunk id1 true; EvLoader; EvLoader;
                          EvLoader]
               (LocalServer 0) in
  reachable fresh_gen s
  ∧ size (loadedChunks (server s)) = 1
  ∧ length (generated s) = size (loadedChunks (server s)) + size (pc_res nat (pc s)).
Proof.
  intros s.
  assert (Hs : reachable fresh_gen s) by (apply reachable_run; constructor).
  split; [exact Hs|]. split; [vm_compute; reflexivity|].
  exact (proj1 (generator_calls_counted nat nat fresh_gen s Hs)).
Defined.

(** *** Bitmaps, on the 3 by 2 texture [tex32] *)

Lemma tex32_allocated : Render.allocated Render.tex32.
Proof. split; [reflexivity | by vm_compute]. Qed.

Lemma getIndex_in_bounds_witness :
  Render.allocated Render.tex32
  ∧ (0 ≤ 1 < Render.bm_height Render.tex32)%Z
  ∧ (0 ≤ 2 < Render.bm_width Render.tex32)%Z
  ∧ Render.getIndex Render.tex32 1 2 = Some 5%Z.
Proof.
  assert (Hr : (0 ≤ 1 < Render.bm_height Render.tex32)%Z) by (simpl; lia).
  assert (Hc : (0 ≤ 2 < Render.bm_width Render.tex32)%Z) by (simpl; lia).
  split; [exact tex32_allocated|]. split; [exact Hr|]. split; [exact Hc|].
  exact (proj1 (getIndex_in_bounds Render.tex32 1 2 tex32_allocated Hr Hc)).
Defined.

Lemma getIndex_injective_witness :
  (0 ≤ 2 < Render.bm_width Render.tex32)%Z
  ∧ Render.getIndex Render.tex32 1 2 = Some 5%Z
  ∧ (1 = 1 ∧ 2 = 2)%Z.
Proof.
  assert (Hc : (0 ≤ 2 < Render.bm_width Render.tex32)%Z) by (simpl; lia).
  assert (Hi : Render.getIndex Render.tex32 1 2 = Some 5%Z) by reflexivity.
  split; [exact Hc|]. split; [exact Hi|].
  exact (getIndex_injective Render.tex32 1 2 1 2 5 Hc Hc Hi Hi).
Defined.

Lemma getIndex_of_index_witness :
  Render.allocated Render.tex32
  ∧ (0 < Render.bm_width Render.tex32)%Z
  ∧ (0 ≤ 4 < Z.of_nat (length (Render.bm_pixels Render.tex32)))%Z
  ∧ Render.getIndex Render.tex32 (4 / Render.bm_width Render.tex32)
                    (4 mod Render.bm_width Render.tex32) = Some 4%Z.
Proof.
  assert (Hw : (0 < Render.bm_width Render.tex32)%Z) by (simpl; lia).
  assert (Hi : (0 ≤ 4 < Z.of_nat (length (Render.bm_pixels Render.tex32)))%Z)
    by (simpl; lia).
  split; [exact tex32_allocated|]. split; [exact Hw|]. split; [exact Hi|].
  exact (proj1 (getIndex_of_index Render.tex32 4 tex32_allocated Hw Hi)).
Defined.

Lemma set_get_witness :
  Render.allocated Render.tex32
  ∧ (0 ≤ 0 < Render.bm_height Render.tex32)%Z
  ∧ (0 ≤ 1 < Render.bm_width Render.tex32)%Z
  ∧ ∃ t', Render.set Render.tex32 0 1 (Render.mkPixel 9 9 9 9) = Some t'
          ∧ Render.get t' 0 1 = Some (Render.mkPixel 9 9 9 9)
          ∧ Render.bm_width t' = Render.bm_width Render.tex32
          ∧ Render.bm_height t' = Render.bm_height Render.tex32
          ∧ Render.allocated t'.
Proof.
  assert (Hr : (0 ≤ 0 < Render.bm_height Render.tex32)%Z) by (simpl; lia).
  assert (Hc : (0 ≤ 1 < Render.bm_width Render.tex32)%Z) by (simpl; lia).
  split; [exact tex32_allocated|]. split; [exact Hr|]. split; [exact Hc|].
  exact (set_get Render.tex32 0 1 (Render.mkPixel 9 9 9 9) tex32_allocated Hr Hc).
Defined.

Lemma set_get_other_witness :
  let t' := Render.Texture.mk 3 2
              [Render.mkPixel 0 0 0 255; Render.mkPixel 9 9 9 9;
               Render.mkPixel 0 2 0 255; Render.mkPixel 1 0 0 255;
               Render.mkPixel 1 1 0 255; Render.mkPixel 1 2 0 255] 1 in
  (0 ≤ 1 < Render.bm_width Render.tex32)%Z
  ∧ (0 ≤ 2 < Render.bm_width Render.tex32)%Z
  ∧ ((1, 2) ≠ (0, 1))%Z
  ∧ Render.set Render.tex32 0 1 (Render.mkPixel 9 9 9 9) = Some t'
  ∧ Render.get t' 1 2 = Render.get Render.tex32 1 2.
Proof.
  intros t'.
  assert (Hc : (0 ≤ 1 < Render.bm_width Render.tex32)%Z) by (simpl; lia).
  assert (Hc' : (0 ≤ 2 < Render.bm_width Render.tex32)%Z) by (simpl; lia).
  assert (Hne : ((1, 2) ≠ (0, 1))%Z) by (intros Heq; inversion Heq).
  assert (Hset : Render.set Render.tex32 0 1 (Render.mkPixel 9 9 9 9) = Some t')
    by reflexivity.
  split; [exact Hc|]. split; [exact Hc'|]. split; [exact Hne|].
  split; [exact Hset|].
  exact (set_get_other Render.tex32 t' 0 1 (Render.mkPixel 9 9 9 9) 1 2
           Hc Hc' Hne Hset).
Defined.

Lemma column_past_width_is_next_row_witness :
  Render.allocated Render.tex32
  ∧ (0 ≤ 0)%Z
  ∧ (0 + 1 < Render.bm_height Render.tex32)%Z
  ∧ (0 ≤ 1 < Render.bm_width Render.tex32)%Z
  ∧ Render.get Render.tex32 0 (1 + Render.bm_width Render.tex32)
    = Render.get Render.tex32 (0 + 1) 1
  ∧ Render.get Render.tex32 0 4 = Some (Render.mkPixel 1 1 0 255).
Proof.
  assert (Hr : (0 ≤ 0)%Z) by lia.
  assert (Hr' : (0 + 1 < Render.bm_height Render.tex32)%Z) by (simpl; lia).
  assert (Hc : (0 ≤ 1 < Render.bm_width Render.tex32)%Z) by (simpl; lia).
  split; [exact tex32_allocated|]. split; [exact Hr|]. split; [exact Hr'|].
  split; [exact Hc|].
  split; [|reflexivity].
  exact (proj1 (proj2 (column_past_width_is_next_row Render.tex32 0 1
                         (Render.mkPixel 9 9 9 9) tex32_allocated Hr Hr' Hc))).
Defined.

Lemma set_set_witness :
  let t1 := Render.Texture.mk 3 2
              [Render.mkPixel 0 0 0 255; Render.mkPixel 9 9 9 9;
               Render.mkPixel 0 2 0 255; Render.mkPixel 1 0 0 255;
               Render.mkPixel 1 1 0 255; Render.mkPixel 1 2 0 255] 1 in
  Render.set Render.tex32 0 1 (Render.mkPixel 9 9 9 9) = Some t1
  ∧ Render.set t1 0 1 (Render.mkPixel 7 7 7 7)
    = Render.set Render.tex32 0 1 (Render.mkPixel 7 7 7 7).
Proof.
  intros t1.
  assert (Hset : Render.set Render.tex32 0 1 (Render.mkPixel 9 9 9 9) = Some t1)
    by reflexivity.
  split; [exact Hset|].
  exact (set_set Render.tex32 t1 0 1 (Render.mkPixel 9 9 9 9)
           (Render.mkPixel 7 7 7 7) Hset).
Defined.

Lemma set_commute_witness :
  let ta := Render.Texture.mk 3 2
              [Render.mkPixel 0 0 0 255; Render.mkPixel 9 9 9 9;
               Render.mkPixel 0 2 0 255; Render.mkPixel 1 0 0 255;
               Render.mkPixel 1 1 0 255; Render.mkPixel 1 2 0 255] 1 in
  let tb := Render.Texture.mk 3 2
              [Render.mkPixel 0 0 0 255; Render.mkPixel 0 1 0 255;
               Render.mkPixel 0 2 0 255; Render.mkPixel 1 0 0 255;
               Render.mkPixel 1 1 0 255; Render.mkPixel 7 7 7 7] 1 in
  (0 ≤ 1 < Render.bm_width Render.tex32)%Z
  ∧ (0 ≤ 2 < Render.bm_width Render.tex32)%Z
  ∧ ((0, 1) ≠ (1, 2))%Z
  ∧ Render.set Render.tex32 0 1 (Render.mkPixel 9 9 9 9) = Some ta
  ∧ Render.set Render.tex32 1 2 (Render.mkPixel 7 7 7 7) = Some tb
  ∧ Render.set ta 1 2 (Render.mkPixel 7 7 7 7)
    = Render.set tb 0 1 (Render.mkPixel 9 9 9 9)
  ∧ is_Some (Render.set ta 1 2 (Render.mkPixel 7 7 7 7)).
Proof.
  intros ta tb.
  assert (Hc1 : (0 ≤ 1 < Render.bm_width Render.tex32)%Z) by (simpl; lia).
  assert (Hc2 : (0 ≤ 2 < Render.bm_width Render.tex32)%Z) by (simpl; lia).
  assert (Hne : ((0, 1) ≠ (1, 2))%Z) by (intros Heq; inversion Heq).
  assert (Ha : Render.set Render.tex32 0 1 (Render.mkPixel 9 9 9 9) = Some ta)
    by reflexivity.
  assert (Hb : Render.set Render.tex32 1 2 (Render.mkPixel 7 7 7 7) = Some tb)
    by reflexivity.
  split; [exact Hc1|]. split; [exact Hc2|]. split; [exact Hne|].
  split; [exact Ha|]. split; [exact Hb|].
  exact (set_commute Render.tex32 ta tb 0 1 (Render.mkPixel 9 9 9 9) 1 2
           (Render.mkPixel 7 7 7 7) Hc1 Hc2 Hne Ha Hb).
Defined.

(** The same methods on a [FontTexture]. *)
Example FontTexture_set_get :
  let f := Render.FontTexture.mk "mono" 2 1
             [Render.mkPixel 0 0 0 0; Render.mkPixel 0 0 0 0] 1 0 ∅ in
  (Render.set f 0 1 (Render.mkPixel 1 2 3 4) ≫= λ f', Render.get f' 0 1)
  = Some (Render.mkPixel 1 2 3 4)
  ∧ Render.get f 0 2 = None
  ∧ Render.getIndex f 1 0 = Some 2%Z.
Proof. cbv zeta. split_and!; reflexivity. Qed.

End Blok.
